(** * Shapes of nested numeric arrays: [src/math/shapes.ts]

    A shallow embedding of the shape helpers of the [math] module
    ([inferShape], [shapeLength], [toShape] and the [iterateND] family)
    together with the properties their description states.  The
    integer helpers [clamp] and [factorial] of [math/mod.ts], the array
    [swap] and the signal of [createSignal] follow.

    Modelling conventions.
    - A JavaScript [number] that holds a dimension, an index or a rank is
      an integer of [Z].  The top-level [shapeLength] and [toShape]
      multiply exactly, which is what the code computes while no product
      exceeds 2^53 - 1; module [F64] has the same functions with the
      binary64 product, and the properties that depend on the value of a
      product are stated there.
    - An array of numbers is a [list Z].  Reading [a[k]] outside
      [0 .. a.length-1] yields [undefined] in JavaScript, and writing
      there grows the array (or, for [k < 0], adds a property that is not
      an element).  Neither result is an array of integers, so both
      accesses are partial here ([js_get], [js_set] return [None]) and
      the functions that use them live in the [option] monad.  Lemma
      [toShape_total] shows that [toShape] never takes such a step.
    - A callback is a state transformer: calling it is the only effect
      of the iteration functions. *)

From Equations Require Import Equations.
From stdpp Require Import base option list numbers.
From Stdlib Require Import ZArith Lia PrimFloat.

Local Open Scope Z_scope.

(** ** The counting loop [for (let i = a; i < b; i++) body] *)

Section ForLoop.
Context {St : Type}.

(** [for_loop i bound body st] runs the loop from the current value [i]
    of the counter: test [i < bound], run the body, increment. *)
Equations? for_loop (i bound : Z) (body : Z -> St -> St) (st : St) : St
  by wf (Z.to_nat (bound - i)) lt :=
  for_loop i bound body st with Z_lt_dec i bound := {
    | left _ => for_loop (i + 1) bound body (body i st)
    | right _ => st }.
Proof. lia. Qed.

End ForLoop.

(** ** Arrays of integers *)

(** [a[k]] as an integer; [None] stands for [undefined]. *)
Definition js_get (a : list Z) (k : Z) : option Z :=
  if 0 <=? k then a !! Z.to_nat k else None.

(** [a[k] = v] inside the bounds of [a]; [None] when the store would not
    overwrite an existing element. *)
Definition js_set (a : list Z) (k : Z) (v : Z) : option (list Z) :=
  if (0 <=? k) && (k <? Z.of_nat (length a))
  then Some (<[Z.to_nat k := v]> a)
  else None.

(** ** Ranks and shapes *)

(** [enum Rank { R1 = 1, ..., R6 = 6 }]. *)
Inductive Rank : Set := R1 | R2 | R3 | R4 | R5 | R6.

Definition rank_value (rank : Rank) : Z :=
  match rank with
  | R1 => 1 | R2 => 2 | R3 => 3 | R4 => 4 | R5 => 5 | R6 => 6
  end.

(** A shape at run time is an array of numbers. *)
Abbreviation Shape := (list Z).

(** The invariant of the data model: at least one dimension, and every
    dimension at least 1. *)
Definition valid_shape (shape : Shape) : Prop :=
  (1 <= length shape)%nat /\ Forall (fun d => 1 <= d) shape.

(** The shapes of fixed rank taken by the iteration functions. *)
Definition Shape2D : Type := Z * Z.
Definition Shape3D : Type := Z * Z * Z.
Definition Shape4D : Type := Z * Z * Z * Z.

(** ** Nested arrays *)

(** A value met while walking an [ArrayMap]: a number, or an array of
    such values.  The numbers themselves are never inspected. *)
#[local] Unset Elimination Schemes.
Inductive ArrayElem : Type :=
| Scalar (x : Z)
| Nested (items : list ArrayElem).
#[local] Set Elimination Schemes.

(** [ArrayMap]: the outermost level is always an array. *)
Abbreviation ArrayMap := (list ArrayElem).

(** ** [inferShape] *)

(** The [while (Array.isArray(elem))] loop, started with [shape] already
    collected.  [elem[0]] of an empty array is [undefined], which is not
    an array: the loop ends there. *)
Fixpoint inferShape_loop (elem : ArrayElem) (shape : list Z) : list Z :=
  match elem with
  | Scalar _ => shape
  | Nested items =>
      let shape' := shape ++ [Z.of_nat (length items)] in
      match items with
      | [] => shape'
      | first :: _ => inferShape_loop first shape'
      end
  end.

Definition inferShape (arr : ArrayMap) : list Z :=
  inferShape_loop (Nested arr) [].

(** ** [shapeLength] *)

(** [let length = 1; shape.forEach((i) => length *= i)]. *)
Definition shapeLength (shape : Shape) : Z :=
  fold_left (fun length i => length * i) shape 1.

(** ** [toShape] *)

(** [new Array(rank).fill(1)] for a rank of the enumeration. *)
Definition ones (rank : Z) : list Z := replicate (Z.to_nat rank) 1.

(** Body of the loop of the collapsing branch ([rank < shape.length]). *)
Definition collapse_step (shape : Shape) (rank : Z) (i : Z) (res : list Z)
  : option (list Z) :=
  let len := Z.of_nat (length shape) in
  if i <? rank then
    v ← js_get shape (len - i);
    js_set res (rank - i) v
  else
    x ← js_get res 0;
    v ← js_get shape (len - i);
    js_set res 0 (x * v).

(** Body of the loop of the expanding branch ([rank > shape.length]). *)
Definition expand_step (shape : Shape) (rank : Z) (i : Z) (res : list Z)
  : option (list Z) :=
  let len := Z.of_nat (length shape) in
  v ← js_get shape (len - i);
  js_set res (rank - i) v.

Definition toShape (shape : Shape) (rank : Rank) : option Shape :=
  let r := rank_value rank in
  let len := Z.of_nat (length shape) in
  if r <? len then
    for_loop 1 (len + 1)
      (fun i res => res ≫= collapse_step shape r i) (Some (ones r))
  else if r >? len then
    for_loop 1 (len + 1)
      (fun i res => res ≫= expand_step shape r i) (Some (ones r))
  else
    Some shape.

Definition shapeTo1D (shape : Shape) : option Shape := toShape shape R1.
Definition shapeTo2D (shape : Shape) : option Shape := toShape shape R2.
Definition shapeTo3D (shape : Shape) : option Shape := toShape shape R3.
Definition shapeTo4D (shape : Shape) : option Shape := toShape shape R4.

(** ** The same functions on binary64 numbers *)

(** The definitions above multiply in exact integer arithmetic, which is
    what JavaScript computes as long as every product stays below 2^53.
    Module [F64] gives [shapeLength] and [toShape] on the numbers of
    JavaScript themselves, restricted to the integer values, the two
    infinities and [NaN]: a product is rounded to the nearest binary64
    number, ties to even, and overflows to an infinity.  The two zeros
    are one value [Num 0]; nothing here tells them apart. *)
Module F64.

Inductive number : Type :=
| Num (z : Z)
| Infinity
| NegInfinity
| NaN.

(** The binary64 number nearest to the integer [z], ties to even.  From
    2^53 on the numbers are the multiples of [2 ^ e] that have 53
    significant bits, [e = log2 |z| - 52]; a magnitude that rounds to
    2^1024 or more overflows. *)
Definition round64 (z : Z) : number :=
  let a := Z.abs z in
  if a <? 2 ^ 53 then Num z
  else
    let e := Z.log2 a - 52 in
    let q := a / 2 ^ e in
    let r := a mod 2 ^ e in
    let half := 2 ^ (e - 1) in
    let q' := if r <? half then q
              else if half <? r then q + 1
              else if Z.even q then q else q + 1 in
    let m := q' * 2 ^ e in
    if 2 ^ 1024 <=? m then (if 0 <? z then Infinity else NegInfinity)
    else Num (Z.sgn z * m).

(** [x * y]. *)
Definition mul64 (x y : number) : number :=
  match x, y with
  | NaN, _ | _, NaN => NaN
  | Num a, Num b => round64 (a * b)
  | Num a, Infinity | Infinity, Num a =>
      if a =? 0 then NaN else if 0 <? a then Infinity else NegInfinity
  | Num a, NegInfinity | NegInfinity, Num a =>
      if a =? 0 then NaN else if 0 <? a then NegInfinity else Infinity
  | Infinity, Infinity | NegInfinity, NegInfinity => Infinity
  | Infinity, NegInfinity | NegInfinity, Infinity => NegInfinity
  end.

(** [a[k]] and [a[k] = v], partial outside the bounds as above. *)
Definition js_get (a : list number) (k : Z) : option number :=
  if 0 <=? k then a !! Z.to_nat k else None.

Definition js_set (a : list number) (k : Z) (v : number)
  : option (list number) :=
  if (0 <=? k) && (k <? Z.of_nat (length a))
  then Some (<[Z.to_nat k := v]> a)
  else None.

(** [let length = 1; shape.forEach((i) => length *= i)]. *)
Definition shapeLength (shape : list number) : number :=
  fold_left (fun length i => mul64 length i) shape (Num 1).

(** [new Array(rank).fill(1)]. *)
Definition ones (rank : Z) : list number := replicate (Z.to_nat rank) (Num 1).

Definition collapse_step (shape : list number) (rank : Z) (i : Z)
  (res : list number) : option (list number) :=
  let len := Z.of_nat (length shape) in
  if i <? rank then
    v ← js_get shape (len - i);
    js_set res (rank - i) v
  else
    x ← js_get res 0;
    v ← js_get shape (len - i);
    js_set res 0 (mul64 x v).

Definition expand_step (shape : list number) (rank : Z) (i : Z)
  (res : list number) : option (list number) :=
  let len := Z.of_nat (length shape) in
  v ← js_get shape (len - i);
  js_set res (rank - i) v.

Definition toShape (shape : list number) (rank : Rank)
  : option (list number) :=
  let r := rank_value rank in
  let len := Z.of_nat (length shape) in
  if r <? len then
    for_loop 1 (len + 1)
      (fun i res => res ≫= collapse_step shape r i) (Some (ones r))
  else if r >? len then
    for_loop 1 (len + 1)
      (fun i res => res ≫= expand_step shape r i) (Some (ones r))
  else
    Some shape.

Definition shapeTo1D (shape : list number) : option (list number) :=
  toShape shape R1.

(** A shape of integer dimensions, as an array of numbers. *)
Definition dims (shape : list Z) : list number := map Num shape.

(** The product that a collapse leaves in position 0: the dimensions
    [ds] multiplied into 1 from the last to the first. *)
Definition product_from_last (ds : list number) : number :=
  fold_left mul64 (rev ds) (Num 1).

End F64.

(** ** Bounded iteration *)

Section Iterate.
Context {St : Type}.

Definition iterate1D (length : Z) (callback : Z -> St -> St) : St -> St :=
  for_loop 0 length callback.

Definition iterate2D (shape : Shape2D) (callback : Z -> Z -> St -> St)
  : St -> St :=
  let '(d0, d1) := shape in
  iterate1D d0 (fun i => iterate1D d1 (fun j => callback i j)).

Definition iterate3D (shape : Shape3D) (callback : Z -> Z -> Z -> St -> St)
  : St -> St :=
  let '(d0, d1, d2) := shape in
  iterate1D d0 (fun i =>
    iterate1D d1 (fun j =>
      iterate1D d2 (fun k => callback i j k))).

Definition iterate4D (shape : Shape4D)
  (callback : Z -> Z -> Z -> Z -> St -> St) : St -> St :=
  let '(d0, d1, d2, d3) := shape in
  iterate1D d0 (fun i =>
    iterate1D d1 (fun j =>
      iterate1D d2 (fun k =>
        iterate1D d3 (fun l => callback i j k l)))).

End Iterate.

(** ** Scalar helpers of [math/mod.ts] *)

(** [clamp]: [Math.max(min, Math.min(max, value))].  Only comparisons
    are involved, so integers behave as any other numbers do. *)
Definition clamp (value min max : Z) : Z := Z.max min (Z.min max value).

(** [factorial]: [n === 0 ? 1 : n * factorial(n - 1)].  The recursion is
    not bounded by the code; [depth] bounds the nesting of the calls and
    [None] says that the bound was reached before a call returned. *)
Fixpoint factorial (depth : nat) (n : Z) : option Z :=
  match depth with
  | O => None
  | S depth' =>
      if n =? 0 then Some 1
      else r ← factorial depth' (n - 1); Some (n * r)
  end.

(** The largest integer below which every integer is a number of
    JavaScript: [Number.MAX_SAFE_INTEGER]. *)
Definition max_safe_integer : Z := 2 ^ 53 - 1.

(** ** [swap] *)

Section Swap.
Context {T : Type}.

(** An array whose positions may read as [undefined] (a hole, or the
    value [undefined] stored): [None].  Indices are array indices,
    natural numbers. *)

(** [array[k]]: [undefined] outside the array. *)
Definition read (array : list (option T)) (k : nat) : option T :=
  match array !! k with
  | Some v => v
  | None => None
  end.

(** [array[k] = v]: overwrites inside the array; outside, the array
    grows to length [k + 1], the positions in between being holes. *)
Definition write (array : list (option T)) (k : nat) (v : option T)
  : list (option T) :=
  if (k <? length array)%nat then <[k := v]> array
  else array ++ replicate (k - length array) None ++ [v].

(** [swap(array, a, b)]: the array after the call. *)
Definition swap (array : list (option T)) (a b : nat) : list (option T) :=
  let temp := read array a in
  let array := write array a (read array b) in
  write array b temp.

End Swap.

(** ** [createSignal] *)

(** The two variables captured by the object that [createSignal]
    returns.  A subscriber acts on a state [W] outside the signal: it
    neither assigns to the signal nor subscribes to it while it runs. *)
Record Signal (T W : Type) : Type := mkSignal {
  value : T;
  subscribers : list (T -> W -> W)
}.
Arguments mkSignal {T W} _ _.
Arguments value {T W} _.
Arguments subscribers {T W} _.

Section SignalOps.
Context {T W : Type}.

Definition createSignal (initialValue : T) : Signal T W :=
  mkSignal initialValue [].

(** [get value()]. *)
Definition get_value (signal : Signal T W) : T := value signal.

(** [set value(v)]: assign, then call every subscriber with the value,
    in the order of the array. *)
Definition set_value (v : T) (signal : Signal T W) (w : W) : Signal T W * W :=
  let signal := mkSignal v (subscribers signal) in
  (signal,
   fold_left (fun w subscriber => subscriber (value signal) w)
     (subscribers signal) w).

(** [subscribe(subscriber)]: [subscribers.push(subscriber)]. *)
Definition subscribe (subscriber : T -> W -> W) (signal : Signal T W)
  : Signal T W :=
  mkSignal (value signal) (subscribers signal ++ [subscriber]).

End SignalOps.

(** A use of a signal: an assignment, or the subscription of the
    subscriber that logs what it receives under the name [tag]. *)
Inductive SignalOp (T : Type) : Type :=
| Assign (v : T)
| Subscribe (tag : nat).
Arguments Assign {T} _.
Arguments Subscribe {T} _.

Definition logger {T : Type} (tag : nat) (v : T) (log : list (nat * T))
  : list (nat * T) :=
  log ++ [(tag, v)].

Definition signal_step {T : Type} (st : Signal T (list (nat * T)) * list (nat * T))
  (op : SignalOp T) : Signal T (list (nat * T)) * list (nat * T) :=
  match op with
  | Assign v => set_value v (fst st) (snd st)
  | Subscribe tag => (subscribe (logger tag) (fst st), snd st)
  end.

(** The signal and the log after the uses [ops], from a fresh signal. *)
Definition signal_run {T : Type} (initialValue : T) (ops : list (SignalOp T))
  : Signal T (list (nat * T)) * list (nat * T) :=
  fold_left signal_step ops (createSignal initialValue, []).

(** The values assigned by [ops], in order. *)
Definition assigned {T : Type} (ops : list (SignalOp T)) : list T :=
  omap (fun op => match op with Assign v => Some v | Subscribe _ => None end) ops.

(** The names subscribed by [ops], in order. *)
Definition subscribed {T : Type} (ops : list (SignalOp T)) : list nat :=
  omap (fun op => match op with Assign _ => None | Subscribe tag => Some tag end) ops.

(** The values that the log shows for the name [tag], in order. *)
Definition received {T : Type} (tag : nat) (log : list (nat * T)) : list T :=
  omap (fun e => if (fst e =? tag)%nat then Some (snd e) else None) log.

(** ** Reference definitions used to state the properties *)

(** The indices of the [k]-th cell of a grid in row-major order, the
    sizes of the axes after the first being given. *)
Definition index3 (d1 d2 k : Z) : Z * Z * Z :=
  (k / (d1 * d2), (k / d2) mod d1, k mod d2).

Definition index4 (d1 d2 d3 k : Z) : Z * Z * Z * Z :=
  (k / (d1 * d2 * d3), (k / (d2 * d3)) mod d1, (k / d3) mod d2, k mod d3).

(** Two nested values have the same first-element path: at each level of
    the descent through the first item both are arrays of the same
    length, or both are scalars. *)
Fixpoint same_first_path (x y : ArrayElem) : bool :=
  match x, y with
  | Scalar _, Scalar _ => true
  | Nested xs, Nested ys =>
      (length xs =? length ys)%nat &&
      match xs, ys with
      | fx :: _, fy :: _ => same_first_path fx fy
      | _, _ => true
      end
  | _, _ => false
  end.

(** [1 * 2 * ... * n]. *)
Definition product_1_to (n : Z) : Z := foldr Z.mul 1 (seqZ 1 n).

(** Embedding of an array without holes. *)
Definition dense {T : Type} (l : list T) : list (option T) := map Some l.

(** Number of leading dimensions that a collapse to [rank] multiplies
    together: [shape.length - rank + 1]. *)
Definition leading (shape : Shape) (rank : Rank) : nat :=
  (length shape + 1 - Z.to_nat (rank_value rank))%nat.



(** [has_shape x dims]: [x] is uniformly nested with the level sizes
    [dims], outermost first: every array at depth [k] has [dims[k]]
    items and the scalars sit exactly at depth [length dims]. *)
Fixpoint has_shape (x : ArrayElem) (dims : list Z) : bool :=
  match x, dims with
  | Scalar _, [] => true
  | Nested items, d :: dims' =>
      (Z.of_nat (length items) =? d) &&
      forallb (fun e => has_shape e dims') items
  | _, _ => false
  end.

(** Every array on the first-element path of [x] has an item. *)
Fixpoint first_path_nonempty (x : ArrayElem) : bool :=
  match x with
  | Scalar _ => true
  | Nested [] => false
  | Nested (first :: _) => first_path_nonempty first
  end.

(** The index pairs of an [m] by [n] grid in row-major order:
    [(0,0), (0,1), ..., (0,n-1), (1,0), ..., (m-1,n-1)]. *)
Definition row_major_pairs (m n : Z) : list (Z * Z) :=
  concat (map (fun i => map (fun j => (i, j)) (seqZ 0 n)) (seqZ 0 m)).

(** A callback that records its arguments, in call order. *)
Definition record_call {A : Type} (a : A) (calls : list A) : list A :=
  calls ++ [a].

(** * Properties *)

(** ** The counting loop *)

Lemma for_loop_seqZ {St : Type} (i bound : Z) (body : Z -> St -> St) (st : St) :
  for_loop i bound body st
  = fold_left (fun s k => body k s) (seqZ i (bound - i)) st.
Proof.
  funelim (for_loop i bound body st).
  - rewrite seqZ_cons by lia. cbn [fold_left].
    replace (Z.pred (bound - i)) with (bound - Z.succ i) by lia.
    assumption.
  - rewrite seqZ_nil by lia. reflexivity.
Qed.

(** ** Array accesses inside the bounds *)

Lemma js_get_in_bounds (a : list Z) (k : nat) (v : Z) :
  a !! k = Some v -> js_get a (Z.of_nat k) = Some v.
Proof.
  intros Hk. unfold js_get.
  destruct (Z.leb_spec 0 (Z.of_nat k)); [|lia].
  now rewrite Nat2Z.id.
Qed.

Lemma js_set_in_bounds (a : list Z) (k : nat) (v : Z) :
  (k < length a)%nat -> js_set a (Z.of_nat k) v = Some (<[k:=v]> a).
Proof.
  intros Hk. unfold js_set.
  destruct (Z.leb_spec 0 (Z.of_nat k)); [|lia].
  destruct (Z.ltb_spec (Z.of_nat k) (Z.of_nat (length a))); [|lia].
  cbn. now rewrite Nat2Z.id.
Qed.

Lemma js_get_head (x : Z) (tail : list Z) : js_get (x :: tail) 0 = Some x.
Proof. reflexivity. Qed.

Lemma js_set_head (x v : Z) (tail : list Z) :
  js_set (x :: tail) 0 v = Some (v :: tail).
Proof. reflexivity. Qed.

(** ** [shapeLength] is the product of the dimensions *)

Lemma fold_left_mul (l : list Z) (a : Z) :
  fold_left (fun length i => length * i) l a = a * shapeLength l.
Proof.
  unfold shapeLength. revert a.
  induction l as [|d l IH] using rev_ind; intros a; cbn.
  - lia.
  - rewrite !fold_left_app. cbn. rewrite IH. lia.
Qed.

Lemma shapeLength_nil : shapeLength [] = 1.
Proof. reflexivity. Qed.

Lemma shapeLength_cons (d : Z) (l : list Z) :
  shapeLength (d :: l) = d * shapeLength l.
Proof.
  unfold shapeLength at 1. cbn [fold_left]. rewrite fold_left_mul. lia.
Qed.

Lemma shapeLength_app (l1 l2 : list Z) :
  shapeLength (l1 ++ l2) = shapeLength l1 * shapeLength l2.
Proof.
  induction l1 as [|d l1 IH]; cbn [app].
  - rewrite shapeLength_nil. lia.
  - rewrite !shapeLength_cons, IH. lia.
Qed.

Lemma shapeLength_replicate_1 (n : nat) : shapeLength (replicate n 1) = 1.
Proof.
  induction n as [|n IH]; [reflexivity|].
  cbn [replicate]. rewrite shapeLength_cons, IH. reflexivity.
Qed.

(** ** The two phases of the loops of [toShape] *)

Section ToShapeLoops.
Variable shape : list Z.
Variable r : nat.

(** While [i < rank] both loops store [shape[len - i]] at [rank - i]. *)
Lemma collapse_step_lt (i : Z) (res : list Z) :
  i < Z.of_nat r ->
  collapse_step shape (Z.of_nat r) i res = expand_step shape (Z.of_nat r) i res.
Proof.
  intros Hi. unfold collapse_step, expand_step.
  destruct (Z.ltb_spec i (Z.of_nat r)); [reflexivity|lia].
Qed.

(** One positional store: the last [1] of the padding is replaced by the
    next dimension, counted from the right. *)
Lemma expand_step_aligned (j : nat) :
  (j < length shape)%nat -> (S j <= r)%nat ->
  expand_step shape (Z.of_nat r) (1 + Z.of_nat j)
    (replicate (r - j) 1 ++ drop (length shape - j) shape)
  = Some (replicate (r - S j) 1 ++ drop (length shape - S j) shape).
Proof.
  intros Hj Hr. unfold expand_step.
  destruct (lookup_lt_is_Some_2 shape (length shape - S j)) as [v Hv]; [lia|].
  replace (Z.of_nat (length shape) - (1 + Z.of_nat j))
    with (Z.of_nat (length shape - S j)) by lia.
  rewrite (js_get_in_bounds _ _ _ Hv). cbn [mbind option_bind].
  replace (Z.of_nat r - (1 + Z.of_nat j)) with (Z.of_nat (r - S j)) by lia.
  rewrite js_set_in_bounds
    by (rewrite length_app, length_replicate; lia).
  f_equal.
  replace (r - j)%nat with (S (r - S j)) by lia.
  rewrite replicate_S_end, <- app_assoc. cbn [app].
  rewrite insert_app_r_alt by (rewrite length_replicate; lia).
  rewrite length_replicate, Nat.sub_diag. cbn.
  rewrite (drop_S _ _ _ Hv).
  now replace (S (length shape - S j)) with (length shape - j)%nat by lia.
Qed.

(** Phase 1: after [j] positional stores the last [j] dimensions are
    right-aligned behind the remaining padding. *)
Lemma expand_steps (j : nat) :
  (j <= length shape)%nat -> (j < r)%nat ->
  fold_left (fun res i => res ≫= expand_step shape (Z.of_nat r) i)
    (seqZ 1 (Z.of_nat j)) (Some (replicate r 1))
  = Some (replicate (r - j) 1 ++ drop (length shape - j) shape).
Proof.
  induction j as [|j IH]; intros Hj Hr.
  - cbn. rewrite !Nat.sub_0_r, drop_all, app_nil_r. reflexivity.
  - rewrite seqZ_S, fold_left_app, IH by lia. cbn [fold_left mbind option_bind].
    apply expand_step_aligned; lia.
Qed.

Lemma collapse_steps_aligned (j : nat) :
  (j <= length shape)%nat -> (j < r)%nat ->
  fold_left (fun res i => res ≫= collapse_step shape (Z.of_nat r) i)
    (seqZ 1 (Z.of_nat j)) (Some (replicate r 1))
  = Some (replicate (r - j) 1 ++ drop (length shape - j) shape).
Proof.
  induction j as [|j IH]; intros Hj Hr.
  - cbn. rewrite !Nat.sub_0_r, drop_all, app_nil_r. reflexivity.
  - rewrite seqZ_S, fold_left_app, IH by lia. cbn [fold_left mbind option_bind].
    rewrite collapse_step_lt by lia.
    apply expand_step_aligned; lia.
Qed.

(** One cumulative multiplication into position 0. *)
Lemma collapse_step_multiply (m k : nat) (tail : list Z) :
  (1 <= r)%nat -> (length shape + 1 = m + r)%nat -> (k < m)%nat ->
  collapse_step shape (Z.of_nat r) (Z.of_nat r + Z.of_nat k)
    (shapeLength (drop (m - k) (take m shape)) :: tail)
  = Some (shapeLength (drop (m - S k) (take m shape)) :: tail).
Proof.
  intros Hr Hm Hk. unfold collapse_step.
  destruct (Z.ltb_spec (Z.of_nat r + Z.of_nat k) (Z.of_nat r)); [lia|].
  rewrite js_get_head. cbn [mbind option_bind].
  destruct (lookup_lt_is_Some_2 shape (m - S k)) as [v Hv]; [lia|].
  replace (Z.of_nat (length shape) - (Z.of_nat r + Z.of_nat k))
    with (Z.of_nat (m - S k)) by lia.
  rewrite (js_get_in_bounds _ _ _ Hv). cbn [mbind option_bind].
  rewrite js_set_head. f_equal. f_equal.
  assert (Hv' : take m shape !! (m - S k)%nat = Some v)
    by (rewrite lookup_take_lt by lia; exact Hv).
  rewrite (drop_S _ _ _ Hv'), shapeLength_cons.
  replace (S (m - S k)) with (m - k)%nat by lia. lia.
Qed.

(** Phase 2: the [k] dimensions just left of the aligned ones have been
    multiplied into position 0. *)
Lemma collapse_steps_multiply (m k : nat) (tail : list Z) :
  (1 <= r)%nat -> (length shape + 1 = m + r)%nat -> (k <= m)%nat ->
  fold_left (fun res i => res ≫= collapse_step shape (Z.of_nat r) i)
    (seqZ (Z.of_nat r) (Z.of_nat k)) (Some (1 :: tail))
  = Some (shapeLength (drop (m - k) (take m shape)) :: tail).
Proof.
  intros Hr Hm. induction k as [|k IH]; intros Hk.
  - cbn. rewrite Nat.sub_0_r, drop_ge by (rewrite length_take; lia).
    reflexivity.
  - rewrite seqZ_S, fold_left_app, IH by lia. cbn [fold_left mbind option_bind].
    apply collapse_step_multiply; lia.
Qed.

End ToShapeLoops.

(** ** What [toShape] returns in each of its three branches *)

Lemma rank_value_bounds (rank : Rank) : 1 <= rank_value rank <= 6.
Proof. destruct rank; cbn; lia. Qed.

Lemma toShape_collapse (shape : Shape) (rank : Rank) :
  rank_value rank < Z.of_nat (length shape) ->
  toShape shape rank
  = Some (shapeLength (take (leading shape rank) shape)
          :: drop (leading shape rank) shape).
Proof.
  intros Hlt. pose proof (rank_value_bounds rank) as Hr.
  unfold toShape, leading, ones.
  destruct (Z.ltb_spec (rank_value rank) (Z.of_nat (length shape))); [|lia].
  rewrite for_loop_seqZ.
  set (r := Z.to_nat (rank_value rank)).
  replace (rank_value rank) with (Z.of_nat r) by (subst r; lia).
  set (m := (length shape + 1 - r)%nat).
  replace (Z.of_nat (length shape) + 1 - 1)
    with (Z.of_nat (r - 1) + Z.of_nat m) by lia.
  rewrite seqZ_app, fold_left_app by lia.
  rewrite collapse_steps_aligned by lia.
  replace (r - (r - 1))%nat with 1%nat by lia.
  replace (length shape - (r - 1))%nat with m by lia.
  replace (1 + Z.of_nat (r - 1)) with (Z.of_nat r) by lia.
  cbn [replicate app].
  rewrite (collapse_steps_multiply shape r m m) by lia.
  now rewrite Nat.sub_diag, drop_0.
Qed.

Lemma toShape_expand (shape : Shape) (rank : Rank) :
  Z.of_nat (length shape) < rank_value rank ->
  toShape shape rank
  = Some (replicate (Z.to_nat (rank_value rank) - length shape) 1 ++ shape).
Proof.
  intros Hlt. pose proof (rank_value_bounds rank) as Hr.
  unfold toShape, ones.
  destruct (Z.ltb_spec (rank_value rank) (Z.of_nat (length shape))); [lia|].
  destruct (Z.gtb_spec (rank_value rank) (Z.of_nat (length shape))); [|lia].
  rewrite for_loop_seqZ.
  set (r := Z.to_nat (rank_value rank)).
  replace (rank_value rank) with (Z.of_nat r) by (subst r; lia).
  replace (Z.of_nat (length shape) + 1 - 1)
    with (Z.of_nat (length shape)) by lia.
  rewrite expand_steps by lia.
  now rewrite Nat.sub_diag, drop_0.
Qed.

Lemma toShape_same_rank (shape : Shape) (rank : Rank) :
  rank_value rank = Z.of_nat (length shape) ->
  toShape shape rank = Some shape.
Proof.
  intros Heq. unfold toShape.
  destruct (Z.ltb_spec (rank_value rank) (Z.of_nat (length shape))); [lia|].
  destruct (Z.gtb_spec (rank_value rank) (Z.of_nat (length shape))); [lia|].
  reflexivity.
Qed.

(** [toShape] never reads or writes outside the bounds of an array:
    the integer model covers every call. *)
Lemma toShape_total (shape : Shape) (rank : Rank) :
  is_Some (toShape shape rank).
Proof.
  destruct (Z.lt_trichotomy (rank_value rank) (Z.of_nat (length shape)))
    as [H|[H|H]].
  - rewrite toShape_collapse by exact H. eauto.
  - rewrite toShape_same_rank by exact H. eauto.
  - rewrite toShape_expand by exact H. eauto.
Qed.

(** ** The examples of the documentation comments *)

Example inferShape_doc :
  inferShape
    [Nested [Nested [Nested [Scalar 1; Scalar 2]; Nested [Scalar 3; Scalar 4]];
             Nested [Nested [Scalar 5; Scalar 6]; Nested [Scalar 7; Scalar 8]]]]
  = [1; 2; 2; 2].
Proof. reflexivity. Qed.

Example shapeLength_doc : shapeLength [1; 2; 3; 4] = 24.
Proof. reflexivity. Qed.

(** The loop itself, run on the documented input of [toShape]. *)
Example toShape_doc_run :
  toShape [1; 2; 3] R1 = Some [6]
  /\ toShape [1; 2; 3] R2 = Some [2; 3]
  /\ toShape [1; 2; 3] R3 = Some [1; 2; 3]
  /\ toShape [1; 2; 3] R4 = Some [1; 1; 2; 3].
Proof. repeat split; vm_compute; reflexivity. Qed.

Example iterate1D_doc : iterate1D 5 record_call [] = [0; 1; 2; 3; 4].
Proof. vm_compute. reflexivity. Qed.

Example iterate2D_doc :
  iterate2D (2, 2) (fun i j => record_call (i, j)) []
  = [(0, 0); (0, 1); (1, 0); (1, 1)].
Proof. vm_compute. reflexivity. Qed.

(** ** Rank conversion *)

(** In exact arithmetic [toShape] keeps the [shapeLength] of every
    shape, for every rank. *)
Lemma toShape_preserves_shapeLength (shape : Shape) (rank : Rank) :
  exists res, toShape shape rank = Some res
              /\ shapeLength res = shapeLength shape.
Proof.
  destruct (Z.lt_trichotomy (rank_value rank) (Z.of_nat (length shape)))
    as [H|[H|H]].
  - rewrite toShape_collapse by exact H. eexists; split; [reflexivity|].
    rewrite shapeLength_cons, <- shapeLength_app. now rewrite take_drop.
  - rewrite toShape_same_rank by exact H. eauto.
  - rewrite toShape_expand by exact H. eexists; split; [reflexivity|].
    rewrite shapeLength_app, shapeLength_replicate_1. lia.
Qed.

(** C3, as the code behaves. [toShape [1,2,3] 1] multiplies all three
    dimensions into position 0 and returns [[6]], not [[1]]. *)
Theorem toShape_123_rank1 :
  toShape [1; 2; 3] R1 = Some [6] /\ toShape [1; 2; 3] R1 <> Some [1].
Proof.
  rewrite toShape_collapse by (cbn; lia). split; [reflexivity|discriminate].
Qed.

(** C4. Expand ([n < r <= 6]): [toShape s r] has length [r], its first
    [r - n] positions hold 1 and the [n] source dimensions follow in
    their order, right-aligned.  In particular
    [toShape [1,2,3] 4 = [1,1,2,3]]. *)
Theorem toShape_expand_spec (shape : Shape) (rank : Rank) :
  Z.of_nat (length shape) < rank_value rank ->
  (exists res,
      toShape shape rank = Some res
      /\ res = replicate (Z.to_nat (rank_value rank) - length shape) 1 ++ shape
      /\ Z.of_nat (length res) = rank_value rank
      /\ (forall k : nat,
             (k < Z.to_nat (rank_value rank) - length shape)%nat ->
             res !! k = Some 1)
      /\ (forall k : nat,
             (k < length shape)%nat ->
             res !! (Z.to_nat (rank_value rank) - length shape + k)%nat
             = shape !! k))
  /\ toShape [1; 2; 3] R4 = Some [1; 1; 2; 3].
Proof.
  intros Hlt. pose proof (rank_value_bounds rank) as Hr. split.
  - eexists. split; [apply toShape_expand; exact Hlt|].
    split; [reflexivity|]. repeat split.
    + rewrite length_app, length_replicate. lia.
    + intros k Hk. rewrite lookup_app_l by (rewrite length_replicate; lia).
      now apply lookup_replicate_2.
    + intros k Hk. rewrite lookup_app_r by (rewrite length_replicate; lia).
      rewrite length_replicate. f_equal. lia.
  - rewrite toShape_expand by (cbn; lia). reflexivity.
Qed.

Lemma toShape_expand_spec_witness :
  Z.of_nat (length [7; 5]) < rank_value R5
  /\ toShape [7; 5] R5 = Some [1; 1; 1; 7; 5].
Proof.
  split; [cbn; lia|].
  destruct (toShape_expand_spec [7; 5] R5) as [(res & -> & -> & _) _].
  - cbn; lia.
  - reflexivity.
Defined.

(** C5. When the rank equals the length of the shape, [toShape] returns
    the shape itself, same dimensions in the same order. *)
Theorem toShape_identity (shape : Shape) (rank : Rank) :
  rank_value rank = Z.of_nat (length shape) ->
  toShape shape rank = Some shape.
Proof. apply toShape_same_rank. Qed.

Lemma toShape_identity_witness :
  rank_value R3 = Z.of_nat (length [1; 2; 3])
  /\ toShape [1; 2; 3] R3 = Some [1; 2; 3].
Proof.
  split; [reflexivity|]. apply (toShape_identity [1; 2; 3] R3). reflexivity.
Defined.

(** ** Shape inference *)

(** Induction on nested values, with the hypothesis for every item. *)
Lemma ArrayElem_ind (P : ArrayElem -> Prop) :
  (forall x, P (Scalar x)) ->
  (forall items, Forall P items -> P (Nested items)) ->
  forall e, P e.
Proof.
  intros HS HN. fix IH 1. intros [x|items].
  - apply HS.
  - apply HN. induction items as [|e items IHitems]; constructor.
    + apply IH.
    + exact IHitems.
Qed.

(** The dimensions already collected stay in front. *)
Lemma inferShape_loop_acc (elem : ArrayElem) (shape : list Z) :
  inferShape_loop elem shape = shape ++ inferShape_loop elem [].
Proof.
  revert shape. induction elem as [x|items IH] using ArrayElem_ind; intros shape.
  - cbn. now rewrite app_nil_r.
  - cbn [inferShape_loop]. destruct items as [|first items].
    + reflexivity.
    + inversion_clear IH as [|? ? IHfirst _].
      rewrite (IHfirst (shape ++ _)), (IHfirst ([] ++ _)).
      now rewrite app_assoc.
Qed.

Lemma inferShape_loop_Nested (items : list ArrayElem) :
  inferShape_loop (Nested items) []
  = Z.of_nat (length items)
    :: match items with
       | [] => []
       | first :: _ => inferShape_loop first []
       end.
Proof.
  cbn [inferShape_loop]. destruct items as [|first items]; [reflexivity|].
  now rewrite inferShape_loop_acc.
Qed.


Lemma inferShape_loop_nonneg (elem : ArrayElem) :
  Forall (fun d => 0 <= d) (inferShape_loop elem []).
Proof.
  induction elem as [x|items IH] using ArrayElem_ind; [constructor|].
  rewrite inferShape_loop_Nested. constructor; [lia|].
  destruct items as [|first items]; [constructor|].
  now inversion_clear IH.
Qed.

Lemma inferShape_loop_positive (elem : ArrayElem) :
  first_path_nonempty elem = true ->
  Forall (fun d => 1 <= d) (inferShape_loop elem []).
Proof.
  induction elem as [x|items IH] using ArrayElem_ind; [constructor|].
  rewrite inferShape_loop_Nested. destruct items as [|first items].
  - discriminate.
  - cbn [first_path_nonempty]. intros Hne. inversion_clear IH as [|? ? IHfirst _].
    constructor; [cbn [length]; lia|]. now apply IHfirst.
Qed.




Lemma shapeLength_ge_1 (shape : Shape) :
  Forall (fun d => 1 <= d) shape -> 1 <= shapeLength shape.
Proof.
  induction 1 as [|d shape Hd _ IH]; [rewrite shapeLength_nil; lia|].
  rewrite shapeLength_cons. nia.
Qed.

(** C6, as it holds for the code. [toShape] on a valid shape and any rank 1..6 returns a
    valid shape.  [inferShape] on a nested array returns at least one
    dimension and no negative one; its dimensions are all at least 1
    when no array on the first-element path is empty, which is not
    checked. *)
Theorem produced_shapes (shape : Shape) (rank : Rank) (arr : ArrayMap) :
  valid_shape shape ->
  (exists res, toShape shape rank = Some res /\ valid_shape res)
  /\ (1 <= length (inferShape arr))%nat
  /\ Forall (fun d => 0 <= d) (inferShape arr)
  /\ (first_path_nonempty (Nested arr) = true -> valid_shape (inferShape arr)).
Proof.
  intros [Hlen Hpos]. pose proof (rank_value_bounds rank) as Hr.
  split; [|split; [|split]].
  - destruct (Z.lt_trichotomy (rank_value rank) (Z.of_nat (length shape)))
      as [H|[H|H]].
    + rewrite toShape_collapse by exact H. eexists; split; [reflexivity|].
      split; [cbn [length]; lia|]. constructor.
      * apply shapeLength_ge_1, Forall_take, Hpos.
      * apply Forall_drop, Hpos.
    + rewrite toShape_same_rank by exact H. eexists; split; [reflexivity|].
      split; assumption.
    + rewrite toShape_expand by exact H. eexists; split; [reflexivity|].
      split.
      * rewrite length_app. lia.
      * apply Forall_app; split; [|exact Hpos].
        apply Forall_replicate. lia.
  - unfold inferShape. rewrite inferShape_loop_Nested. cbn [length]. lia.
  - apply inferShape_loop_nonneg.
  - intros Hne. split.
    + unfold inferShape. rewrite inferShape_loop_Nested. cbn [length]. lia.
    + now apply inferShape_loop_positive.
Qed.

Lemma produced_shapes_witness :
  valid_shape [2; 3; 4]
  /\ (exists res, toShape [2; 3; 4] R2 = Some res /\ valid_shape res)
  /\ valid_shape (inferShape [Nested [Scalar 1; Scalar 2]]).
Proof.
  assert (Hv : valid_shape [2; 3; 4]).
  { split; [cbn; lia|]. repeat constructor; lia. }
  split; [exact Hv|].
  destruct (produced_shapes [2; 3; 4] R2 [Nested [Scalar 1; Scalar 2]] Hv)
    as (Hres & _ & _ & Hinfer).
  split; [exact Hres|]. apply Hinfer. reflexivity.
Defined.

(** The shape inferred from the empty array is not a valid shape: the
    invariant fails for [inferShape]. *)
Lemma inferShape_empty_not_valid : ~ valid_shape (inferShape []).
Proof.
  intros [_ Hpos]. cbn in Hpos. inversion_clear Hpos as [|? ? H0 _]. lia.
Qed.

(** C7. The empty outermost array yields exactly [[0]]; more generally
    an empty array met at any level appends 0 and ends the walk. *)
Theorem inferShape_empty :
  inferShape [] = [0]
  /\ forall shape, inferShape_loop (Nested []) shape = shape ++ [0].
Proof. split; reflexivity. Qed.



(** ** Bounded iteration *)

Lemma fold_left_pointwise {A B : Type} (f g : A -> B -> A) (l : list B) (a : A) :
  (forall a b, f a b = g a b) -> fold_left f l a = fold_left g l a.
Proof.
  intros Hfg. revert a. induction l as [|b l IH]; intros a; cbn; [reflexivity|].
  now rewrite Hfg, IH.
Qed.

Lemma fold_left_concat_map {A B C : Type} (f : A -> C -> A) (g : B -> list C)
  (l : list B) (a : A) :
  fold_left f (concat (map g l)) a
  = fold_left (fun s b => fold_left f (g b) s) l a.
Proof.
  revert a. induction l as [|b l IH]; intros a; cbn; [reflexivity|].
  now rewrite fold_left_app, IH.
Qed.

Lemma fold_left_map {A B C : Type} (f : A -> C -> A) (g : B -> C)
  (l : list B) (a : A) :
  fold_left f (map g l) a = fold_left (fun s b => f s (g b)) l a.
Proof.
  revert a. induction l as [|b l IH]; intros a; cbn; [reflexivity|]. apply IH.
Qed.

(** [iterate1D length cb] calls [cb] on [0, 1, ..., length-1] in turn. *)
Lemma iterate1D_fold {St : Type} (length : Z) (cb : Z -> St -> St) (st : St) :
  iterate1D length cb st = fold_left (fun s i => cb i s) (seqZ 0 length) st.
Proof.
  unfold iterate1D. rewrite for_loop_seqZ. now rewrite Z.sub_0_r.
Qed.

Lemma iterate1D_nonpositive {St : Type} (length : Z) (cb : Z -> St -> St)
  (st : St) :
  length <= 0 -> iterate1D length cb st = st.
Proof.
  intros Hle. rewrite iterate1D_fold, seqZ_nil by exact Hle. reflexivity.
Qed.

(** A loop whose body leaves the state alone leaves the state alone. *)
Lemma iterate1D_skip {St : Type} (length : Z) (cb : Z -> St -> St) (st : St) :
  (forall i s, cb i s = s) -> iterate1D length cb st = st.
Proof.
  intros Hskip. rewrite iterate1D_fold.
  induction (seqZ 0 length) as [|i l IH]; cbn; [reflexivity|].
  now rewrite Hskip.
Qed.

Lemma iterate2D_fold {St : Type} (m n : Z) (cb : Z -> Z -> St -> St) (st : St) :
  iterate2D (m, n) cb st
  = fold_left (fun s p => cb (fst p) (snd p) s) (row_major_pairs m n) st.
Proof.
  unfold iterate2D, row_major_pairs.
  rewrite iterate1D_fold, fold_left_concat_map.
  apply fold_left_pointwise. intros s i.
  now rewrite iterate1D_fold, fold_left_map.
Qed.

(** The grid, one more row at a time. *)
Lemma row_major_pairs_S (m : nat) (n : Z) :
  row_major_pairs (Z.of_nat (S m)) n
  = row_major_pairs (Z.of_nat m) n ++ map (fun j => (Z.of_nat m, j)) (seqZ 0 n).
Proof.
  unfold row_major_pairs.
  rewrite seqZ_S, map_app, concat_app. cbn. now rewrite app_nil_r.
Qed.

Lemma length_row_major_pairs (m : nat) (n : Z) :
  0 <= n ->
  Z.of_nat (length (row_major_pairs (Z.of_nat m) n)) = Z.of_nat m * n.
Proof.
  intros Hn. induction m as [|m IH]; [reflexivity|].
  rewrite row_major_pairs_S, length_app, length_map, length_seqZ. lia.
Qed.

Lemma lookup_row_major_pairs (m : nat) (n : Z) (k : nat) :
  0 <= n -> Z.of_nat k < Z.of_nat m * n ->
  row_major_pairs (Z.of_nat m) n !! k
  = Some (Z.of_nat k / n, Z.of_nat k mod n).
Proof.
  intros Hn. induction m as [|m IH]; intros Hk; [lia|].
  pose proof (length_row_major_pairs m n Hn) as Hlen.
  rewrite row_major_pairs_S.
  destruct (Z.lt_ge_cases (Z.of_nat k) (Z.of_nat m * n)) as [Hlt|Hge].
  - rewrite lookup_app_l by lia. now apply IH.
  - rewrite lookup_app_r by lia.
    change (map ?f ?l) with (f <$> l). rewrite list_lookup_fmap.
    rewrite lookup_seqZ_lt by lia. cbn [fmap option_fmap option_map].
    assert (Hk' : Z.of_nat k = Z.of_nat m * n
                               + Z.of_nat (k - length (row_major_pairs (Z.of_nat m) n)))
      by lia.
    set (q := Z.of_nat (k - length (row_major_pairs (Z.of_nat m) n))) in *.
    assert (0 <= q < n) by lia.
    f_equal. f_equal.
    + apply (Z.div_unique_pos _ _ _ q); lia.
    + rewrite Z.add_0_l. apply (Z.mod_unique_pos _ _ (Z.of_nat m)); lia.
Qed.

Lemma fold_left_record_call {A : Type} (l calls : list (A * A)) :
  fold_left (fun s p => record_call (fst p, snd p) s) l calls = calls ++ l.
Proof.
  revert calls. induction l as [|[i j] l IH]; intros calls; cbn [fold_left].
  - now rewrite app_nil_r.
  - rewrite IH. unfold record_call. cbn. now rewrite <- app_assoc.
Qed.

(** C9. For [m >= 0] and [n >= 0], [iterate2D [m,n] cb] performs the
    calls of [cb] on the pairs of [row_major_pairs m n], in that order
    and nothing else; recording the calls gives back exactly that list.
    The list has [m * n] entries and its [k]-th entry is
    [(k / n, k mod n)]: [(0,0), (0,1), ..., (0,n-1), (1,0), ...,
    (m-1,n-1)], the last axis varying fastest. *)
Theorem iterate2D_row_major {St : Type} (m n : Z)
  (cb : Z -> Z -> St -> St) (st : St) :
  0 <= m -> 0 <= n ->
  iterate2D (m, n) cb st
  = fold_left (fun s p => cb (fst p) (snd p) s) (row_major_pairs m n) st
  /\ iterate2D (m, n) (fun i j => record_call (i, j)) [] = row_major_pairs m n
  /\ Z.of_nat (length (row_major_pairs m n)) = m * n
  /\ (forall k, 0 <= k < m * n ->
                row_major_pairs m n !! Z.to_nat k = Some (k / n, k mod n)).
Proof.
  intros Hm Hn. split; [apply iterate2D_fold|]. split; [|split].
  - rewrite iterate2D_fold. apply (fold_left_record_call _ []).
  - rewrite <- (Z2Nat.id m Hm). now apply length_row_major_pairs.
  - intros k Hk. rewrite <- (Z2Nat.id m Hm).
    rewrite lookup_row_major_pairs by lia. now rewrite Z2Nat.id by lia.
Qed.

Lemma iterate2D_row_major_witness :
  0 <= 2 /\ 0 <= 3
  /\ iterate2D (2, 3) (fun i j => record_call (i, j)) []
     = [(0, 0); (0, 1); (0, 2); (1, 0); (1, 1); (1, 2)].
Proof.
  split; [lia|]. split; [lia|].
  destruct (iterate2D_row_major 2 3 (fun i j => record_call (i, j)) [])
    as (_ & Hcalls & _); [lia|lia|].
  rewrite Hcalls. reflexivity.
Defined.

(** C10. With a length that is zero or negative [iterate1D] never calls
    the callback: whatever the callback, the state is returned as it
    was.  The same holds for [iterate2D], [iterate3D] and [iterate4D] as
    soon as one dimension of the shape is zero or negative. *)
Theorem iterate_nonpositive {St : Type} (d0 d1 d2 d3 : Z) (st : St) :
  (forall cb : Z -> St -> St, d0 <= 0 -> iterate1D d0 cb st = st)
  /\ (forall cb : Z -> Z -> St -> St,
         d0 <= 0 \/ d1 <= 0 -> iterate2D (d0, d1) cb st = st)
  /\ (forall cb : Z -> Z -> Z -> St -> St,
         d0 <= 0 \/ d1 <= 0 \/ d2 <= 0 -> iterate3D (d0, d1, d2) cb st = st)
  /\ (forall cb : Z -> Z -> Z -> Z -> St -> St,
         d0 <= 0 \/ d1 <= 0 \/ d2 <= 0 \/ d3 <= 0 ->
         iterate4D (d0, d1, d2, d3) cb st = st).
Proof.
  split; [|split; [|split]].
  - intros cb H0. now apply iterate1D_nonpositive.
  - intros cb [H0|H1]; unfold iterate2D.
    + now apply iterate1D_nonpositive.
    + apply iterate1D_skip. intros i s. now apply iterate1D_nonpositive.
  - intros cb [H0|[H1|H2]]; unfold iterate3D.
    + now apply iterate1D_nonpositive.
    + apply iterate1D_skip. intros i s. now apply iterate1D_nonpositive.
    + apply iterate1D_skip. intros i s.
      apply iterate1D_skip. intros j s'. now apply iterate1D_nonpositive.
  - intros cb [H0|[H1|[H2|H3]]]; unfold iterate4D.
    + now apply iterate1D_nonpositive.
    + apply iterate1D_skip. intros i s. now apply iterate1D_nonpositive.
    + apply iterate1D_skip. intros i s.
      apply iterate1D_skip. intros j s'. now apply iterate1D_nonpositive.
    + apply iterate1D_skip. intros i s.
      apply iterate1D_skip. intros j s'.
      apply iterate1D_skip. intros k s''. now apply iterate1D_nonpositive.
Qed.

Lemma iterate_nonpositive_witness :
  iterate1D 0 record_call [] = []
  /\ iterate2D (3, -1) (fun i j => record_call (i, j)) [] = []
  /\ iterate3D (2, 0, 5) (fun i j k => record_call (i, j, k)) [] = []
  /\ iterate4D (2, 2, 2, 0) (fun i j k l => record_call (i, j, k, l)) [] = [].
Proof.
  split; [|split; [|split]].
  - apply (proj1 (iterate_nonpositive 0 0 0 0 [])). lia.
  - apply (proj1 (proj2 (iterate_nonpositive 3 (-1) 0 0 []))). lia.
  - apply (proj1 (proj2 (proj2 (iterate_nonpositive 2 0 5 0 [])))). lia.
  - apply (proj2 (proj2 (proj2 (iterate_nonpositive 2 2 2 0 [])))). lia.
Defined.

(** * Further properties of [shapes.ts] *)

(** ** Iteration over one, three and four axes *)

Lemma fold_left_record {A B : Type} (f : B -> A) (l : list B) (calls : list A) :
  fold_left (fun s b => record_call (f b) s) l calls = calls ++ map f l.
Proof.
  revert calls. induction l as [|b l IH]; intros calls; cbn [fold_left map].
  - now rewrite app_nil_r.
  - rewrite IH. unfold record_call. now rewrite <- app_assoc.
Qed.

Lemma fold_left_ext_in {A B : Type} (f g : A -> B -> A) (l : list B) (a : A) :
  (forall a b, b ∈ l -> f a b = g a b) -> fold_left f l a = fold_left g l a.
Proof.
  revert a. induction l as [|b l IH]; intros a Hfg; cbn; [reflexivity|].
  rewrite Hfg by apply list_elem_of_here.
  apply IH. intros a' b' Hb'. apply Hfg. now apply list_elem_of_further.
Qed.

Lemma fold_left_fmap {A B C : Type} (f : A -> C -> A) (g : B -> C)
  (l : list B) (a : A) :
  fold_left f (g <$> l) a = fold_left (fun s b => f s (g b)) l a.
Proof.
  revert a. induction l as [|b l IH]; intros a; cbn; [reflexivity|]. apply IH.
Qed.

(** X1. [iterate1D n cb], [n >= 0], calls [cb] exactly [n] times, on
    [0, 1, ..., n-1] in that order. *)
Theorem iterate1D_calls {St : Type} (n : Z) (cb : Z -> St -> St) (st : St) :
  0 <= n ->
  iterate1D n cb st = fold_left (fun s i => cb i s) (seqZ 0 n) st
  /\ iterate1D n record_call [] = seqZ 0 n
  /\ Z.of_nat (length (seqZ 0 n)) = n
  /\ (forall k, 0 <= k < n -> seqZ 0 n !! Z.to_nat k = Some k).
Proof.
  intros Hn. split; [apply iterate1D_fold|]. split; [|split].
  - rewrite iterate1D_fold, (fold_left_record (fun i => i)).
    now rewrite map_id.
  - rewrite length_seqZ. lia.
  - intros k Hk. rewrite lookup_seqZ_lt by lia. f_equal. lia.
Qed.

Lemma iterate1D_calls_witness :
  0 <= 4 /\ iterate1D 4 record_call [] = [0; 1; 2; 3].
Proof.
  split; [lia|].
  destruct (iterate1D_calls 4 record_call []) as (_ & Hcalls & _); [lia|].
  rewrite Hcalls. reflexivity.
Defined.

(** A loop over [n] rows with an inner loop over [B] cells each is one
    loop over [n * B] cells, the [k]-th being cell [k mod B] of row
    [k / B]. *)
Lemma nested_loops_flatten {St : Type} (n : nat) (B : Z)
  (inner : Z -> Z -> St -> St) (st : St) :
  0 <= B ->
  fold_left (fun s i => fold_left (fun s q => inner i q s) (seqZ 0 B) s)
    (seqZ 0 (Z.of_nat n)) st
  = fold_left (fun s k => inner (k / B) (k mod B) s)
      (seqZ 0 (Z.of_nat n * B)) st.
Proof.
  intros HB. induction n as [|n IH].
  - reflexivity.
  - rewrite seqZ_S, fold_left_app, IH. cbn [fold_left].
    replace (Z.of_nat (S n) * B) with (Z.of_nat n * B + B) by lia.
    rewrite seqZ_app, fold_left_app by nia.
    rewrite !Z.add_0_l.
    replace (seqZ (Z.of_nat n * B) B)
      with (Z.add (Z.of_nat n * B) <$> seqZ 0 B)
      by (rewrite fmap_add_seqZ; f_equal; lia).
    rewrite fold_left_fmap. apply fold_left_ext_in.
    intros s q [Hq0 Hq]%elem_of_seqZ.
    rewrite (Z.add_comm _ q), Z.div_add, Z.mod_add by lia.
    rewrite Z.div_small, Z.mod_small by lia. f_equal.
Qed.

Lemma iterate2D_flat {St : Type} (m n : Z) (cb : Z -> Z -> St -> St) (st : St) :
  0 <= m -> 0 <= n ->
  iterate2D (m, n) cb st
  = fold_left (fun s k => cb (k / n) (k mod n) s) (seqZ 0 (m * n)) st.
Proof.
  intros Hm Hn. unfold iterate2D. rewrite iterate1D_fold.
  rewrite <- (Z2Nat.id m Hm).
  rewrite <- nested_loops_flatten by exact Hn.
  apply fold_left_pointwise. intros s i. apply iterate1D_fold.
Qed.

Lemma index3_block (d1 d2 k : Z) :
  0 < d1 -> 0 < d2 -> 0 <= k ->
  ((k mod (d1 * d2)) / d2 = (k / d2) mod d1)
  /\ (k mod (d1 * d2)) mod d2 = k mod d2.
Proof.
  intros H1 H2 Hk.
  rewrite (Z.mul_comm d1 d2), Z.rem_mul_r by lia.
  pose proof (Z.mod_pos_bound k d2 H2).
  split.
  - rewrite (Z.mul_comm d2), Z.div_add by lia.
    rewrite (Z.div_small (k mod d2)) by lia. lia.
  - rewrite (Z.mul_comm d2), Z.mod_add by lia. apply Z.mod_mod. lia.
Qed.

Lemma iterate3D_flat {St : Type} (a b c : Z)
  (cb : Z -> Z -> Z -> St -> St) (st : St) :
  0 <= a -> 0 <= b -> 0 <= c ->
  iterate3D (a, b, c) cb st
  = fold_left
      (fun s k => cb (k / (b * c)) ((k / c) mod b) (k mod c) s)
      (seqZ 0 (a * b * c)) st.
Proof.
  intros Ha Hb Hc. unfold iterate3D. rewrite iterate1D_fold.
  rewrite (fold_left_pointwise _
    (fun s i => fold_left (fun s q => cb i (q / c) (q mod c) s)
                  (seqZ 0 (b * c)) s))
    by (intros s i; apply (iterate2D_flat b c (cb i) s Hb Hc)).
  rewrite <- (Z2Nat.id a Ha) at 1.
  rewrite (nested_loops_flatten (Z.to_nat a) (b * c)
             (fun i q => cb i (q / c) (q mod c))) by nia.
  rewrite Z2Nat.id, <- Z.mul_assoc by exact Ha.
  apply fold_left_ext_in. intros s k [Hk0 Hk]%elem_of_seqZ.
  assert (0 < b /\ 0 < c) as [Hb' Hc'] by nia.
  destruct (index3_block b c k Hb' Hc') as [-> ->]; [lia|]. reflexivity.
Qed.

Lemma iterate4D_flat {St : Type} (a b c d : Z)
  (cb : Z -> Z -> Z -> Z -> St -> St) (st : St) :
  0 <= a -> 0 <= b -> 0 <= c -> 0 <= d ->
  iterate4D (a, b, c, d) cb st
  = fold_left
      (fun s k =>
         cb (k / (b * c * d)) ((k / (c * d)) mod b) ((k / d) mod c) (k mod d) s)
      (seqZ 0 (a * b * c * d)) st.
Proof.
  intros Ha Hb Hc Hd. unfold iterate4D. rewrite iterate1D_fold.
  rewrite (fold_left_pointwise _
    (fun s i =>
       fold_left (fun s q => cb i (q / (c * d)) ((q / d) mod c) (q mod d) s)
         (seqZ 0 (b * c * d)) s))
    by (intros s i; apply (iterate3D_flat b c d (cb i) s Hb Hc Hd)).
  rewrite <- (Z2Nat.id a Ha) at 1.
  rewrite (nested_loops_flatten (Z.to_nat a) (b * c * d)
             (fun i q => cb i (q / (c * d)) ((q / d) mod c) (q mod d))) by nia.
  rewrite Z2Nat.id by exact Ha.
  replace (a * (b * c * d)) with (a * b * c * d) by lia.
  apply fold_left_ext_in. intros s k [Hk0 Hk]%elem_of_seqZ.
  assert (0 < b /\ 0 < c /\ 0 < d) as (Hb' & Hc' & Hd') by nia.
  assert (Hcd : 0 < c * d) by nia.
  assert (Hbc : 0 < b * c) by nia.
  destruct (index3_block b (c * d) k Hb' Hcd) as [E1 _]; [lia|].
  destruct (index3_block (b * c) d k Hbc Hd') as [E2 E3]; [lia|].
  destruct (index3_block b c (k / d) Hb' Hc') as [_ E4];
    [apply Z.div_pos; lia|].
  replace (b * (c * d)) with (b * c * d) in E1 by lia.
  now rewrite E1, E2, E3, E4.
Qed.

(** X2. For non-negative sizes, [iterate3D [a,b,c] cb] makes exactly
    [a * b * c] calls; the [k]-th one is [cb(k / (b*c), (k / c) mod b,
    k mod c)]: row-major order, the last axis varying fastest. *)
Theorem iterate3D_row_major {St : Type} (a b c : Z)
  (cb : Z -> Z -> Z -> St -> St) (st : St) :
  0 <= a -> 0 <= b -> 0 <= c ->
  iterate3D (a, b, c) cb st
  = fold_left (fun s t => cb (fst (fst t)) (snd (fst t)) (snd t) s)
      (map (index3 b c) (seqZ 0 (a * b * c))) st
  /\ iterate3D (a, b, c) (fun i j k => record_call (i, j, k)) []
     = map (index3 b c) (seqZ 0 (a * b * c))
  /\ Z.of_nat (length (map (index3 b c) (seqZ 0 (a * b * c)))) = a * b * c.
Proof.
  intros Ha Hb Hc. split; [|split].
  - rewrite iterate3D_flat, fold_left_map by assumption. reflexivity.
  - rewrite iterate3D_flat by assumption.
    apply (fold_left_record (index3 b c) _ []).
  - rewrite length_map, length_seqZ. nia.
Qed.

Lemma iterate3D_row_major_witness :
  0 <= 2 /\ 0 <= 1 /\ 0 <= 2
  /\ iterate3D (2, 1, 2) (fun i j k => record_call (i, j, k)) []
     = [(0, 0, 0); (0, 0, 1); (1, 0, 0); (1, 0, 1)].
Proof.
  split; [lia|]. split; [lia|]. split; [lia|].
  destruct (iterate3D_row_major 2 1 2 (fun i j k => record_call (i, j, k)) [])
    as (_ & Hcalls & _); [lia|lia|lia|].
  rewrite Hcalls. reflexivity.
Defined.

(** X3. For non-negative sizes, [iterate4D [a,b,c,d] cb] makes exactly
    [a * b * c * d] calls; the [k]-th one is [cb(k / (b*c*d),
    (k / (c*d)) mod b, (k / d) mod c, k mod d)]. *)
Theorem iterate4D_row_major {St : Type} (a b c d : Z)
  (cb : Z -> Z -> Z -> Z -> St -> St) (st : St) :
  0 <= a -> 0 <= b -> 0 <= c -> 0 <= d ->
  iterate4D (a, b, c, d) cb st
  = fold_left
      (fun s t => cb (fst (fst (fst t))) (snd (fst (fst t))) (snd (fst t))
                    (snd t) s)
      (map (index4 b c d) (seqZ 0 (a * b * c * d))) st
  /\ iterate4D (a, b, c, d) (fun i j k l => record_call (i, j, k, l)) []
     = map (index4 b c d) (seqZ 0 (a * b * c * d))
  /\ Z.of_nat (length (map (index4 b c d) (seqZ 0 (a * b * c * d))))
     = a * b * c * d.
Proof.
  intros Ha Hb Hc Hd. split; [|split].
  - rewrite iterate4D_flat, fold_left_map by assumption. reflexivity.
  - rewrite iterate4D_flat by assumption.
    apply (fold_left_record (index4 b c d) _ []).
  - rewrite length_map, length_seqZ. nia.
Qed.

Lemma iterate4D_row_major_witness :
  0 <= 1 /\ 0 <= 2 /\ 0 <= 1 /\ 0 <= 2
  /\ iterate4D (1, 2, 1, 2) (fun i j k l => record_call (i, j, k, l)) []
     = [(0, 0, 0, 0); (0, 0, 0, 1); (0, 1, 0, 0); (0, 1, 0, 1)].
Proof.
  split; [lia|]. split; [lia|]. split; [lia|]. split; [lia|].
  destruct (iterate4D_row_major 1 2 1 2
              (fun i j k l => record_call (i, j, k, l)) [])
    as (_ & Hcalls & _); [lia|lia|lia|lia|].
  rewrite Hcalls. reflexivity.
Defined.

(** ** What [inferShape] sees of its input *)

Lemma inferShape_loop_prefix (elem : ArrayElem) (dims : list Z) :
  has_shape elem dims = true -> inferShape_loop elem [] `prefix_of` dims.
Proof.
  revert dims. induction elem as [x|items IH] using ArrayElem_ind; intros dims.
  - intros _. apply prefix_nil.
  - destruct dims as [|d dims]; [discriminate|]. cbn [has_shape].
    intros [Hlen Hall]%andb_prop. apply Z.eqb_eq in Hlen.
    rewrite inferShape_loop_Nested, Hlen. apply prefix_cons.
    destruct items as [|first items]; [apply prefix_nil|].
    inversion_clear IH as [|? ? IHfirst _]. cbn [forallb] in Hall.
    apply andb_prop in Hall as [Hfirst _]. now apply IHfirst.
Qed.

Lemma inferShape_loop_exact (elem : ArrayElem) (dims : list Z) :
  has_shape elem dims = true -> Forall (fun d => d <> 0) dims ->
  inferShape_loop elem [] = dims.
Proof.
  revert dims. induction elem as [x|items IH] using ArrayElem_ind; intros dims.
  - destruct dims; [reflexivity|discriminate].
  - destruct dims as [|d dims]; [discriminate|]. cbn [has_shape].
    intros [Hlen Hall]%andb_prop Hnz. apply Z.eqb_eq in Hlen.
    inversion_clear Hnz as [|? ? Hd Hdims].
    rewrite inferShape_loop_Nested, Hlen. f_equal.
    destruct items as [|first items]; [cbn in Hlen; lia|].
    inversion_clear IH as [|? ? IHfirst _]. cbn [forallb] in Hall.
    apply andb_prop in Hall as [Hfirst _]. now apply IHfirst.
Qed.

(** X4. For an array uniformly nested with the level sizes [dims],
    [inferShape] returns [dims] when no size is 0, and in any case a
    prefix of [dims] (the walk ends at the first empty level). *)
Theorem inferShape_uniform (arr : ArrayMap) (dims : list Z) :
  has_shape (Nested arr) dims = true ->
  inferShape arr `prefix_of` dims
  /\ (Forall (fun d => d <> 0) dims -> inferShape arr = dims).
Proof.
  intros Hu. split.
  - now apply inferShape_loop_prefix.
  - now apply inferShape_loop_exact.
Qed.

Lemma inferShape_uniform_witness :
  has_shape (Nested [Nested [Scalar 1; Scalar 2; Scalar 3];
                     Nested [Scalar 4; Scalar 5; Scalar 6]]) [2; 3] = true
  /\ inferShape [Nested [Scalar 1; Scalar 2; Scalar 3];
                 Nested [Scalar 4; Scalar 5; Scalar 6]] = [2; 3].
Proof.
  split; [reflexivity|].
  apply (inferShape_uniform
           [Nested [Scalar 1; Scalar 2; Scalar 3];
            Nested [Scalar 4; Scalar 5; Scalar 6]] [2; 3]); [reflexivity|].
  repeat constructor; lia.
Defined.

Lemma same_first_path_inferShape_loop (x y : ArrayElem) :
  same_first_path x y = true <-> inferShape_loop x [] = inferShape_loop y [].
Proof.
  revert y. induction x as [a|xs IH] using ArrayElem_ind; intros [b|ys].
  - cbn. tauto.
  - rewrite inferShape_loop_Nested. cbn. split; discriminate.
  - rewrite inferShape_loop_Nested. cbn. split; discriminate.
  - rewrite !inferShape_loop_Nested. cbn [same_first_path].
    rewrite andb_true_iff, Nat.eqb_eq.
    destruct xs as [|fx xs], ys as [|fy ys]; cbn [length].
    + split; [reflexivity|tauto].
    + split; [intros [? _]; lia|intros [= ?]; lia].
    + split; [intros [? _]; lia|intros [= ?]; lia].
    + inversion_clear IH as [|? ? IHfirst _]. rewrite IHfirst. split.
      * intros [Hlen ->]. do 2 f_equal. lia.
      * intros [= Hlen ->]. split; [lia|reflexivity].
Qed.

(** X5. [inferShape] depends on the first-element path only: two arrays
    get the same shape exactly when, level by level along the first
    items, their lengths agree.  The items after the first are never
    looked at, so a ragged array is not noticed. *)
Theorem inferShape_first_path_only (arr arr' : ArrayMap) :
  inferShape arr = inferShape arr'
  <-> same_first_path (Nested arr) (Nested arr') = true.
Proof.
  unfold inferShape. symmetry. apply same_first_path_inferShape_loop.
Qed.

(** ** More on rank conversion *)

(** The two closed forms, with the rank as a natural number. *)
Lemma toShape_pad (shape : Shape) (rank : Rank) :
  (length shape <= Z.to_nat (rank_value rank))%nat ->
  toShape shape rank
  = Some (replicate (Z.to_nat (rank_value rank) - length shape) 1 ++ shape).
Proof.
  intros Hle. pose proof (rank_value_bounds rank) as Hr.
  destruct (decide (length shape = Z.to_nat (rank_value rank))) as [Heq|Hne].
  - rewrite toShape_same_rank by lia.
    now rewrite Heq, Nat.sub_diag.
  - apply toShape_expand. lia.
Qed.

Lemma toShape_fold (shape : Shape) (rank : Rank) :
  (Z.to_nat (rank_value rank) <= length shape)%nat ->
  toShape shape rank
  = Some (shapeLength (take (leading shape rank) shape)
          :: drop (leading shape rank) shape).
Proof.
  intros Hle. pose proof (rank_value_bounds rank) as Hr.
  destruct (decide (length shape = Z.to_nat (rank_value rank))) as [Heq|Hne].
  - rewrite toShape_same_rank by lia. unfold leading.
    replace (length shape + 1 - Z.to_nat (rank_value rank))%nat with 1%nat by lia.
    destruct shape as [|d shape]; [cbn in Heq; lia|].
    cbn [firstn skipn]. rewrite take_0, drop_0, shapeLength_cons, shapeLength_nil.
    do 2 f_equal. lia.
  - apply toShape_collapse. lia.
Qed.

(** Leading ones do not change what a collapse computes. *)
Lemma collapse_leading_ones (j m : nat) (l : list Z) :
  shapeLength (take (j + m) (replicate j 1 ++ l))
  :: drop (j + m) (replicate j 1 ++ l)
  = shapeLength (take m l) :: drop m l.
Proof.
  rewrite take_app_add', drop_app_add' by (symmetry; apply length_replicate).
  now rewrite shapeLength_app, shapeLength_replicate_1, Z.mul_1_l.
Qed.

Lemma toShape_compose (shape : Shape) (rank1 rank2 : Rank) :
  rank_value rank2 <= rank_value rank1
  \/ Z.of_nat (length shape) <= rank_value rank1 ->
  toShape shape rank1 ≫= (fun res => toShape res rank2) = toShape shape rank2.
Proof.
  intros Hcase.
  pose proof (rank_value_bounds rank1) as Hr1.
  pose proof (rank_value_bounds rank2) as Hr2.
  set (n := length shape).
  set (r1 := Z.to_nat (rank_value rank1)).
  set (r2 := Z.to_nat (rank_value rank2)).
  destruct (le_lt_dec n r1) as [Hn1|Hn1].
  - (* the first conversion pads *)
    rewrite (toShape_pad shape rank1) by exact Hn1. cbn [mbind option_bind].
    fold n r1. set (t := replicate (r1 - n) 1 ++ shape).
    assert (Ht : length t = r1)
      by (subst t; rewrite length_app, length_replicate; lia).
    destruct (le_lt_dec r1 r2) as [H12|H12].
    + rewrite (toShape_pad t), (toShape_pad shape rank2) by (fold r2 n; lia).
      fold r2 n. rewrite Ht. subst t. rewrite app_assoc, <- replicate_add.
      do 3 f_equal. lia.
    + rewrite (toShape_fold t) by (fold r2; lia).
      unfold leading. fold r2. rewrite Ht.
      destruct (le_lt_dec n r2) as [Hn2|Hn2].
      * rewrite (toShape_pad shape rank2) by exact Hn2. fold r2 n. f_equal.
        subst t.
        replace (r1 - n)%nat with ((r1 - r2) + (r2 - n))%nat by lia.
        rewrite replicate_add, <- app_assoc.
        replace (r1 + 1 - r2)%nat with ((r1 - r2) + 1)%nat by lia.
        rewrite collapse_leading_ones.
        destruct (replicate (r2 - n) 1 ++ shape) as [|d l] eqn:El.
        -- apply (f_equal length) in El.
           rewrite length_app, length_replicate in El. cbn in El. lia.
        -- cbn [firstn skipn].
           rewrite take_0, drop_0, shapeLength_cons, shapeLength_nil.
           f_equal. lia.
      * rewrite (toShape_fold shape rank2) by (fold r2 n; lia).
        unfold leading. fold r2 n. f_equal. subst t.
        replace (r1 + 1 - r2)%nat with ((r1 - n) + (n + 1 - r2))%nat by lia.
        apply collapse_leading_ones.
  - (* the first conversion collapses, the second one collapses further *)
    assert (H21 : (r2 <= r1)%nat) by lia.
    rewrite (toShape_fold shape rank1) by (fold r1 n; lia).
    cbn [mbind option_bind]. unfold leading. fold r1 n.
    set (m1 := (n + 1 - r1)%nat).
    set (t := shapeLength (take m1 shape) :: drop m1 shape).
    assert (Ht : length t = r1)
      by (subst t; cbn [length]; rewrite length_drop; lia).
    rewrite (toShape_fold t), (toShape_fold shape rank2) by (fold r2 n; lia).
    unfold leading. fold r2 n. rewrite Ht. f_equal.
    replace (r1 + 1 - r2)%nat with (S (r1 - r2)) by lia.
    replace (n + 1 - r2)%nat with (m1 + (r1 - r2))%nat by lia.
    subst t. cbn [firstn skipn].
    rewrite shapeLength_cons, <- shapeLength_app, drop_drop.
    f_equal. f_equal.
    rewrite <- (take_drop m1 (take (m1 + (r1 - r2)) shape)).
    rewrite take_take, Nat.min_l by lia.
    f_equal. now rewrite skipn_firstn_comm, Nat.add_comm, Nat.add_sub.
Qed.

(** X6. Whatever the shape (even an empty or an invalid one) and the
    rank, [toShape] stays inside the bounds of its arrays and returns an
    array of exactly [rank] entries. *)
Theorem toShape_length (shape : Shape) (rank : Rank) :
  exists res, toShape shape rank = Some res
              /\ Z.of_nat (length res) = rank_value rank.
Proof.
  pose proof (rank_value_bounds rank) as Hr.
  destruct (le_lt_dec (length shape) (Z.to_nat (rank_value rank))) as [H|H].
  - rewrite toShape_pad by exact H. eexists; split; [reflexivity|].
    rewrite length_app, length_replicate. lia.
  - rewrite toShape_fold by lia. eexists; split; [reflexivity|].
    unfold leading. cbn [length]. rewrite length_drop. lia.
Qed.

(** X8. Round trip: padding a shape to a higher rank and converting the
    result back to the rank of the shape gives the shape back. *)
Theorem toShape_expand_then_back (shape : Shape) (rank back : Rank) :
  rank_value back = Z.of_nat (length shape) ->
  rank_value back <= rank_value rank ->
  toShape shape rank ≫= (fun res => toShape res back) = Some shape.
Proof.
  intros Hback Hle. rewrite toShape_compose by (left; exact Hle).
  now apply toShape_same_rank.
Qed.

Lemma toShape_expand_then_back_witness :
  rank_value R2 = Z.of_nat (length [7; 5])
  /\ rank_value R2 <= rank_value R5
  /\ toShape [7; 5] R5 ≫= (fun res => toShape res R2) = Some [7; 5].
Proof.
  split; [reflexivity|]. split; [cbn; lia|].
  apply (toShape_expand_then_back [7; 5] R5 R2); [reflexivity|cbn; lia].
Defined.

(** In exact arithmetic [shapeTo1D] gives the one-element shape that
    holds the [shapeLength]. *)
Lemma shapeTo1D_shapeLength (shape : Shape) :
  shapeTo1D shape = Some [shapeLength shape].
Proof.
  unfold shapeTo1D. destruct shape as [|d shape].
  - rewrite toShape_pad by (cbn; lia). reflexivity.
  - rewrite toShape_fold by (cbn; lia). unfold leading.
    replace (length (d :: shape) + 1 - Z.to_nat (rank_value R1))%nat
      with (length (d :: shape)) by (cbn; lia).
    rewrite firstn_all, drop_all. reflexivity.
Qed.

(** * Properties of [math/mod.ts] *)

(** ** [clamp] *)

(** X11. With [min <= max] the result of [clamp] lies in [[min, max]];
    it is the value itself when the value lies there, [min] for a value
    below and [max] for a value above. *)
Theorem clamp_in_range (v min max : Z) :
  min <= max ->
  min <= clamp v min max <= max
  /\ (min <= v <= max -> clamp v min max = v)
  /\ (v <= min -> clamp v min max = min)
  /\ (max <= v -> clamp v min max = max).
Proof. unfold clamp. lia. Qed.

Lemma clamp_in_range_witness :
  0 <= 10 /\ clamp 5 0 10 = 5 /\ clamp (-5) 0 10 = 0 /\ clamp 15 0 10 = 10.
Proof.
  split; [lia|].
  destruct (clamp_in_range 5 0 10) as (_ & H5 & _); [lia|].
  destruct (clamp_in_range (-5) 0 10) as (_ & _ & Hlow & _); [lia|].
  destruct (clamp_in_range 15 0 10) as (_ & _ & _ & Hhigh); [lia|].
  split; [apply H5; lia|]. split; [apply Hlow; lia|apply Hhigh; lia].
Defined.

(** X12. With the bounds the wrong way round ([max < min]) [clamp]
    returns [min], whatever the value. *)
Theorem clamp_inverted_bounds (v min max : Z) :
  max < min -> clamp v min max = min.
Proof. unfold clamp. lia. Qed.

Lemma clamp_inverted_bounds_witness :
  0 < 10 /\ clamp 5 10 0 = 10 /\ clamp 99 10 0 = 10.
Proof.
  split; [lia|].
  split; [apply (clamp_inverted_bounds 5 10 0)|apply (clamp_inverted_bounds 99 10 0)];
    lia.
Defined.

(** X13. [clamp] with fixed bounds is idempotent and monotone in the
    value, for any bounds. *)
Theorem clamp_idempotent_monotone (v v' min max : Z) :
  clamp (clamp v min max) min max = clamp v min max
  /\ (v <= v' -> clamp v min max <= clamp v' min max).
Proof. unfold clamp. lia. Qed.

Lemma clamp_idempotent_monotone_witness :
  3 <= 12 /\ clamp 3 5 10 <= clamp 12 5 10.
Proof.
  split; [lia|]. apply (clamp_idempotent_monotone 3 12 5 10). lia.
Defined.

(** ** [factorial] *)

Lemma product_1_to_S (n : nat) :
  product_1_to (Z.of_nat (S n)) = Z.of_nat (S n) * product_1_to (Z.of_nat n).
Proof.
  unfold product_1_to. rewrite seqZ_S, foldr_app. cbn [foldr].
  generalize (seqZ 1 (Z.of_nat n)). intros l.
  replace (1 + Z.of_nat n) with (Z.of_nat (S n)) by lia.
  generalize (Z.of_nat (S n)). intros k.
  induction l as [|x l IH]; cbn [foldr]; [lia|]. rewrite IH. lia.
Qed.

Lemma factorial_nonneg (n depth : nat) :
  (n < depth)%nat ->
  factorial depth (Z.of_nat n) = Some (product_1_to (Z.of_nat n)).
Proof.
  revert depth. induction n as [|n IH]; intros [|depth] Hd; try lia.
  - reflexivity.
  - cbn [factorial]. destruct (Z.eqb_spec (Z.of_nat (S n)) 0) as [E|_]; [lia|].
    replace (Z.of_nat (S n) - 1) with (Z.of_nat n) by lia.
    rewrite IH by lia. cbn [mbind option_bind]. now rewrite product_1_to_S.
Qed.

Lemma factorial_too_shallow (n depth : nat) :
  (depth <= n)%nat -> factorial depth (Z.of_nat n) = None.
Proof.
  revert n. induction depth as [|depth IH]; intros n Hd; [reflexivity|].
  destruct n as [|n]; [lia|]. cbn [factorial].
  destruct (Z.eqb_spec (Z.of_nat (S n)) 0) as [E|_]; [lia|].
  replace (Z.of_nat (S n) - 1) with (Z.of_nat n) by lia.
  now rewrite IH by lia.
Qed.

Lemma factorial_negative (n : Z) (depth : nat) :
  n < 0 -> factorial depth n = None.
Proof.
  revert n. induction depth as [|depth IH]; intros n Hn; [reflexivity|].
  cbn [factorial]. destruct (Z.eqb_spec n 0) as [E|_]; [lia|].
  now rewrite IH by lia.
Qed.

(** X14. For [0 <= n <= 18], [factorial(n)] returns [1 * 2 * ... * n]
    as soon as [n + 1] nested calls are allowed, and the result is a
    safe integer (18! < 2^53), so that no rounding occurs. *)
Theorem factorial_small (n : Z) (depth : nat) :
  0 <= n <= 18 -> n < Z.of_nat depth ->
  factorial depth n = Some (product_1_to n)
  /\ 1 <= product_1_to n <= max_safe_integer.
Proof.
  intros Hn Hd. split.
  - rewrite <- (Z2Nat.id n) by lia. apply factorial_nonneg. lia.
  - assert (Hall : forallb (fun k => (1 <=? product_1_to k)
                                    && (product_1_to k <=? max_safe_integer))
                     (seqZ 0 19) = true) by (vm_compute; reflexivity).
    rewrite forallb_forall in Hall.
    assert (Hin : In n (seqZ 0 19))
      by (apply list_elem_of_In, elem_of_seqZ; lia).
    apply Hall, andb_prop in Hin. destruct Hin as [Hlo Hhi].
    split; [now apply Z.leb_le|now apply Z.leb_le].
Qed.

Lemma factorial_small_witness :
  0 <= 5 <= 18 /\ 5 < Z.of_nat 6 /\ factorial 6 5 = Some 120.
Proof.
  split; [lia|]. split; [cbn; lia|].
  destruct (factorial_small 5 6) as [Hval _]; [lia|cbn; lia|].
  rewrite Hval. reflexivity.
Defined.

(** X15. [factorial(n)] returns exactly when [n] is a non-negative
    integer and [n + 1] nested calls fit: for a negative [n] the
    recursion never reaches [n === 0], whatever depth is allowed. *)
Theorem factorial_returns (n : Z) (depth : nat) :
  is_Some (factorial depth n) <-> 0 <= n < Z.of_nat depth.
Proof.
  split.
  - intros [r Hr]. destruct (Z.lt_ge_cases n 0) as [Hneg|Hnn].
    + rewrite factorial_negative in Hr by exact Hneg. discriminate.
    + split; [exact Hnn|]. destruct (Z.lt_ge_cases n (Z.of_nat depth)); [assumption|].
      rewrite <- (Z2Nat.id n Hnn), factorial_too_shallow in Hr by lia.
      discriminate.
  - intros [Hnn Hd]. rewrite <- (Z2Nat.id n Hnn), factorial_nonneg by lia. eauto.
Qed.

(** * Properties of [swap] *)

Section SwapFacts.
Context {T : Type}.
Implicit Types (array : list (option T)) (v : option T).

Lemma read_lookup array k v : array !! k = Some v -> read array k = v.
Proof. unfold read. now intros ->. Qed.

Lemma read_outside array k : (length array <= k)%nat -> read array k = None.
Proof. intros Hk. unfold read. now rewrite lookup_ge_None_2. Qed.

Lemma write_inside array k v :
  (k < length array)%nat -> write array k v = <[k:=v]> array.
Proof.
  intros Hk. unfold write.
  now destruct (Nat.ltb_spec k (length array)); [|lia].
Qed.

Lemma length_write array k v :
  length (write array k v) = Nat.max (length array) (S k).
Proof.
  unfold write. destruct (Nat.ltb_spec k (length array)).
  - rewrite length_insert. lia.
  - rewrite !length_app, length_replicate. cbn. lia.
Qed.

Lemma read_write array k v j :
  read (write array k v) j = if decide (j = k) then v else read array j.
Proof.
  unfold write. destruct (Nat.ltb_spec k (length array)) as [Hin|Hout].
  - unfold read. rewrite list_lookup_insert.
    destruct (decide (j = k)) as [->|Hne].
    + now rewrite decide_True by (split; [reflexivity|exact Hin]).
    + now rewrite decide_False by (intros [? _]; congruence).
  - destruct (decide (j = k)) as [->|Hne].
    + apply read_lookup. rewrite lookup_app_r by exact Hout.
      rewrite lookup_app_r by (rewrite length_replicate; lia).
      rewrite length_replicate, Nat.sub_diag. reflexivity.
    + destruct (le_lt_dec (length array) j) as [Hj|Hj].
      * rewrite (read_outside array j Hj). unfold read.
        rewrite lookup_app_r by exact Hj.
        destruct (le_lt_dec (k - length array) (j - length array)) as [Hjk|Hjk].
        -- rewrite lookup_app_r by (rewrite length_replicate; lia).
           rewrite length_replicate.
           destruct (j - length array - (k - length array))%nat as [|i] eqn:E;
             [lia|]. reflexivity.
        -- rewrite lookup_app_l by (rewrite length_replicate; lia).
           now rewrite lookup_replicate_2 by lia.
      * unfold read. now rewrite lookup_app_l by exact Hj.
Qed.

Lemma swap_inside array a b xa xb :
  array !! a = Some xa -> array !! b = Some xb ->
  swap array a b = <[b:=xa]> (<[a:=xb]> array).
Proof.
  intros Ha Hb. unfold swap.
  rewrite (read_lookup _ _ _ Ha), (read_lookup _ _ _ Hb).
  apply lookup_lt_Some in Ha, Hb.
  rewrite (write_inside array a) by exact Ha.
  now rewrite write_inside by (rewrite length_insert; exact Hb).
Qed.

(** X16. After [swap(array, a, b)] position [a] reads what [b] read
    before, position [b] what [a] read, and every other position what it
    read; this holds for all indices, a position outside the array
    reading [undefined]. *)
Theorem swap_reads array a b :
  read (swap array a b) a = read array b
  /\ read (swap array a b) b = read array a
  /\ (forall j, j <> a -> j <> b -> read (swap array a b) j = read array j).
Proof.
  unfold swap. split; [|split].
  - rewrite !read_write. destruct (decide (a = b)) as [->|Hne]; [reflexivity|].
    now rewrite decide_True by reflexivity.
  - rewrite read_write. now rewrite decide_True by reflexivity.
  - intros j Ha Hb. rewrite !read_write.
    now rewrite !decide_False by assumption.
Qed.

(** X17. [swap] never shortens the array: the length afterwards is the
    largest of the old length, [a + 1] and [b + 1].  An index outside the
    array makes it grow. *)
Theorem swap_length array a b :
  length (swap array a b)
  = Nat.max (length array) (Nat.max (S a) (S b)).
Proof. unfold swap. rewrite !length_write. lia. Qed.

(** X18. With both indices inside the array, [swap] only rearranges:
    the result is a permutation of the array, of the same length. *)
Theorem swap_permutation array a b :
  (a < length array)%nat -> (b < length array)%nat ->
  swap array a b ≡ₚ array /\ length (swap array a b) = length array.
Proof.
  intros Ha Hb.
  destruct (lookup_lt_is_Some_2 array a Ha) as [xa Hxa].
  destruct (lookup_lt_is_Some_2 array b Hb) as [xb Hxb].
  rewrite (swap_inside array a b xa xb Hxa Hxb). split.
  - now apply Permutation_insert_swap.
  - now rewrite !length_insert.
Qed.

(** X19. With both indices inside the array, swapping twice restores
    the array. *)
Theorem swap_twice array a b :
  (a < length array)%nat -> (b < length array)%nat ->
  swap (swap array a b) a b = array.
Proof.
  intros Ha Hb.
  destruct (lookup_lt_is_Some_2 array a Ha) as [xa Hxa].
  destruct (lookup_lt_is_Some_2 array b Hb) as [xb Hxb].
  rewrite (swap_inside array a b xa xb Hxa Hxb).
  set (array' := <[b:=xa]> (<[a:=xb]> array)).
  assert (Hlen : length array' = length array)
    by (subst array'; now rewrite !length_insert).
  assert (Ha' : array' !! a = Some xb).
  { subst array'. destruct (decide (a = b)) as [->|Hne].
    - rewrite list_lookup_insert_eq by (rewrite length_insert; exact Hb).
      congruence.
    - rewrite list_lookup_insert_ne by congruence.
      now rewrite list_lookup_insert_eq. }
  assert (Hb' : array' !! b = Some xa).
  { subst array'.
    now rewrite list_lookup_insert_eq by (rewrite length_insert; exact Hb). }
  rewrite (swap_inside array' a b xb xa Ha' Hb').
  apply list_eq. intros j.
  destruct (decide (j = b)) as [->|Hjb].
  - rewrite list_lookup_insert_eq by (rewrite length_insert; lia). now symmetry.
  - rewrite list_lookup_insert_ne by congruence.
    destruct (decide (j = a)) as [->|Hja].
    + rewrite list_lookup_insert_eq by lia. now symmetry.
    + rewrite list_lookup_insert_ne by congruence. subst array'.
      now rewrite !list_lookup_insert_ne by congruence.
Qed.

End SwapFacts.

Lemma swap_reads_witness :
  (1 <> 0 /\ 1 <> 4)%nat
  /\ read (swap (dense [1; 2; 3]) 0 4) 4 = Some 1
  /\ read (swap (dense [1; 2; 3]) 0 4) 0 = None
  /\ read (swap (dense [1; 2; 3]) 0 4) 1 = Some 2.
Proof.
  destruct (swap_reads (dense [1; 2; 3]) 0 4) as (Ha & Hb & Hother).
  split; [lia|]. split; [rewrite Hb; reflexivity|].
  split; [rewrite Ha; reflexivity|]. rewrite (Hother 1%nat) by lia. reflexivity.
Defined.

Lemma swap_permutation_witness :
  (1 < length (dense [1; 2; 3; 4; 5]))%nat
  /\ (3 < length (dense [1; 2; 3; 4; 5]))%nat
  /\ swap (dense [1; 2; 3; 4; 5]) 1 3 ≡ₚ dense [1; 2; 3; 4; 5].
Proof.
  split; [cbn; lia|]. split; [cbn; lia|].
  apply (swap_permutation (dense [1; 2; 3; 4; 5]) 1 3); cbn; lia.
Defined.

Lemma swap_twice_witness :
  (1 < length (dense [1; 2; 3; 4; 5]))%nat
  /\ (3 < length (dense [1; 2; 3; 4; 5]))%nat
  /\ swap (dense [1; 2; 3; 4; 5]) 1 3 = dense [1; 4; 3; 2; 5]
  /\ swap (swap (dense [1; 2; 3; 4; 5]) 1 3) 1 3 = dense [1; 2; 3; 4; 5].
Proof.
  split; [cbn; lia|]. split; [cbn; lia|]. split; [reflexivity|].
  apply (swap_twice (dense [1; 2; 3; 4; 5]) 1 3); cbn; lia.
Defined.

(** * Properties of [createSignal] *)

Section SignalFacts.
Context {T : Type}.
Implicit Types (ops : list (SignalOp T)) (log : list (nat * T)).

Lemma signal_run_snoc (init : T) ops (op : SignalOp T) :
  signal_run init (ops ++ [op]) = signal_step (signal_run init ops) op.
Proof. unfold signal_run. now rewrite fold_left_app. Qed.

Lemma assigned_snoc ops (op : SignalOp T) :
  assigned (ops ++ [op])
  = assigned ops ++ match op with Assign v => [v] | Subscribe _ => [] end.
Proof. unfold assigned. rewrite omap_app. now destruct op. Qed.

Lemma subscribed_snoc ops (op : SignalOp T) :
  subscribed (ops ++ [op])
  = subscribed ops ++ match op with Assign _ => [] | Subscribe t => [t] end.
Proof. unfold subscribed. rewrite omap_app. now destruct op. Qed.

(** The signal after a run: the last value assigned, and the loggers
    subscribed, in order. *)
Lemma signal_run_state (init : T) ops :
  fst (signal_run init ops)
  = mkSignal (List.last (assigned ops) init) (map logger (subscribed ops)).
Proof.
  induction ops as [|op ops IH] using rev_ind; [reflexivity|].
  rewrite signal_run_snoc, assigned_snoc, subscribed_snoc.
  destruct op as [v|tag]; cbn [signal_step set_value subscribe fst].
  - rewrite IH, last_last, app_nil_r. reflexivity.
  - rewrite IH, map_app, app_nil_r. reflexivity.
Qed.

Lemma notify_loggers (tags : list nat) (v : T) log :
  fold_left (fun w subscriber => subscriber v w) (map logger tags) log
  = log ++ map (fun tag => (tag, v)) tags.
Proof.
  revert log. induction tags as [|tag tags IH]; intros log; cbn [map fold_left].
  - now rewrite app_nil_r.
  - rewrite IH. unfold logger. now rewrite <- app_assoc.
Qed.

Lemma signal_run_log_assign (init v : T) ops :
  snd (signal_run init (ops ++ [Assign v]))
  = snd (signal_run init ops) ++ map (fun tag => (tag, v)) (subscribed ops).
Proof.
  rewrite signal_run_snoc. cbn [signal_step set_value snd].
  rewrite signal_run_state. cbn [subscribers value]. apply notify_loggers.
Qed.

Lemma signal_run_log_subscribe (init : T) (tag : nat) ops :
  snd (signal_run init (ops ++ [Subscribe tag])) = snd (signal_run init ops).
Proof. now rewrite signal_run_snoc. Qed.

Lemma received_app (tag : nat) log log' :
  received tag (log ++ log') = received tag log ++ received tag log'.
Proof. apply omap_app. Qed.

Lemma received_notification (tag : nat) (v : T) (tags : list nat) :
  received tag (map (fun t => (t, v)) tags)
  = replicate (length (filter (fun t => t = tag) tags)) v.
Proof.
  induction tags as [|t tags IH]; [reflexivity|].
  cbn [map]. unfold received in *. cbn [omap list_omap fst snd].
  rewrite filter_cons. destruct (Nat.eqb_spec t tag) as [->|Hne].
  - rewrite decide_True by reflexivity. cbn [length replicate]. now rewrite IH.
  - rewrite decide_False by exact Hne. exact IH.
Qed.

Lemma filter_absent (tag : nat) (tags : list nat) :
  tag ∉ tags -> filter (fun t => t = tag) tags = [].
Proof.
  induction tags as [|t tags IH]; [reflexivity|].
  rewrite not_elem_of_cons. intros [Hne Htags].
  rewrite filter_cons, decide_False by congruence. now apply IH.
Qed.

(** A name that never subscribed has received nothing. *)
Lemma received_not_subscribed (init : T) (tag : nat) ops :
  tag ∉ subscribed ops -> received tag (snd (signal_run init ops)) = [].
Proof.
  induction ops as [|op ops IH] using rev_ind; [reflexivity|].
  rewrite subscribed_snoc, not_elem_of_app. intros [Hops Hop].
  destruct op as [v|t].
  - rewrite signal_run_log_assign, received_app, IH, received_notification
      by exact Hops.
    now rewrite filter_absent by exact Hops.
  - rewrite signal_run_log_subscribe. now apply IH.
Qed.

(** X20. Reading the signal gives the last value assigned, or the
    initial value when nothing was assigned; subscribing changes
    nothing to it. *)
Theorem signal_last_assignment (init : T) ops :
  get_value (fst (signal_run init ops)) = List.last (assigned ops) init.
Proof. unfold get_value. now rewrite signal_run_state. Qed.

(** X21. An assignment calls every subscriber registered so far, once
    per subscription and in the order of subscription, with the new
    value; a subscription by itself calls nobody. *)
Theorem signal_assign_notifies (init v : T) (tag : nat) ops :
  snd (signal_run init (ops ++ [Assign v]))
  = snd (signal_run init ops) ++ map (fun t => (t, v)) (subscribed ops)
  /\ snd (signal_run init (ops ++ [Subscribe tag])) = snd (signal_run init ops).
Proof.
  split; [apply signal_run_log_assign|apply signal_run_log_subscribe].
Qed.

(** X22. A subscriber that subscribes once receives exactly the values
    assigned after its subscription, in order: not the current value
    when it subscribes, nothing assigned before, and every later
    assignment, also of a value equal to the current one. *)
Theorem signal_subscriber_receives (init : T) (tag : nat) ops1 ops2 :
  tag ∉ subscribed ops1 -> tag ∉ subscribed ops2 ->
  received tag (snd (signal_run init (ops1 ++ Subscribe tag :: ops2)))
  = assigned ops2.
Proof.
  intros H1. induction ops2 as [|op ops2 IH] using rev_ind; intros H2.
  - rewrite signal_run_log_subscribe. now apply received_not_subscribed.
  - rewrite subscribed_snoc, not_elem_of_app in H2. destruct H2 as [H2 Hop].
    rewrite app_comm_cons, app_assoc, assigned_snoc.
    destruct op as [v|t].
    + rewrite signal_run_log_assign, received_app, IH, received_notification
        by exact H2.
      f_equal. unfold subscribed. rewrite omap_app. cbn [omap list_omap].
      rewrite list.filter_app, filter_cons, decide_True by reflexivity.
      fold (subscribed ops1) (subscribed ops2).
      now rewrite !filter_absent by assumption.
    + rewrite signal_run_log_subscribe, app_nil_r. now apply IH.
Qed.

(** X23. Subscriptions are not deduplicated: an assignment delivers the
    value to a name as many times as that name subscribed before. *)
Theorem signal_no_deduplication (init v : T) (tag : nat) ops :
  received tag (snd (signal_run init (ops ++ [Assign v])))
  = received tag (snd (signal_run init ops))
    ++ replicate (length (filter (fun t => t = tag) (subscribed ops))) v.
Proof.
  now rewrite signal_run_log_assign, received_app, received_notification.
Qed.

End SignalFacts.

Lemma signal_subscriber_receives_witness :
  (7%nat ∉ subscribed [Assign 1; Subscribe 3%nat])
  /\ (7%nat ∉ subscribed [Assign 2; Subscribe 4%nat; Assign 2; Assign 5])
  /\ received 7%nat
       (snd (signal_run 0
               ([Assign 1; Subscribe 3%nat]
                ++ Subscribe 7%nat
                   :: [Assign 2; Subscribe 4%nat; Assign 2; Assign 5])))
     = [2; 2; 5].
Proof.
  assert (H1 : 7%nat ∉ subscribed [Assign 1; Subscribe 3%nat])
    by (cbn; rewrite list_elem_of_singleton; lia).
  assert (H2 : 7%nat ∉ subscribed [Assign 2; Subscribe 4%nat; Assign 2; Assign 5])
    by (cbn; rewrite list_elem_of_singleton; lia).
  split; [exact H1|]. split; [exact H2|].
  apply (signal_subscriber_receives 0 7%nat _ _ H1 H2).
Defined.

(** * [shapeLength] and [toShape] on binary64 numbers *)

(** ** Rounding and multiplication *)

Lemma round64_exact (z : Z) : Z.abs z < 2 ^ 53 -> F64.round64 z = F64.Num z.
Proof.
  intros Hz. unfold F64.round64.
  now destruct (Z.ltb_spec (Z.abs z) (2 ^ 53)); [|lia].
Qed.

(** Rounding never turns a non-zero integer into zero. *)
Lemma round64_zero (z : Z) : F64.round64 z = F64.Num 0 -> z = 0.
Proof.
  unfold F64.round64.
  destruct (Z.ltb_spec (Z.abs z) (2 ^ 53)) as [_|Hbig]; [congruence|].
  cbv zeta. set (a := Z.abs z) in *. set (e := Z.log2 a - 52).
  set (q := a / 2 ^ e).
  set (q' := if a mod 2 ^ e <? 2 ^ (e - 1) then q
             else if 2 ^ (e - 1) <? a mod 2 ^ e then q + 1
             else if Z.even q then q else q + 1).
  assert (Ha : 0 < a) by (pose proof (Z.pow_pos_nonneg 2 53); lia).
  assert (Hlog : 53 <= Z.log2 a).
  { rewrite <- (Z.log2_pow2 53) by lia. now apply Z.log2_le_mono. }
  assert (He : 0 < 2 ^ e) by (apply Z.pow_pos_nonneg; lia).
  assert (Hea : 2 ^ e <= a).
  { transitivity (2 ^ Z.log2 a).
    - apply Z.pow_le_mono_r; lia.
    - now apply Z.log2_spec. }
  assert (Hq : 0 < q) by (apply Z.div_str_pos; lia).
  assert (Hq' : q <= q').
  { subst q'. destruct (_ <? _); [lia|].
    destruct (_ <? _); [lia|]. destruct (Z.even q); lia. }
  destruct (2 ^ 1024 <=? q' * 2 ^ e).
  - destruct (0 <? z); discriminate.
  - intros [= H]. subst a. nia.
Qed.

Lemma mul64_zero (x y : F64.number) :
  F64.mul64 x y = F64.Num 0 -> x = F64.Num 0 \/ y = F64.Num 0.
Proof.
  destruct x as [a| | |], y as [b| | |]; cbn [F64.mul64];
    try discriminate;
    try (destruct (_ =? 0); [discriminate|destruct (0 <? _); discriminate]).
  intros H%round64_zero. apply Z.mul_eq_0 in H as [->| ->]; auto.
Qed.

Lemma mul64_by_zero (x : F64.number) :
  F64.mul64 x (F64.Num 0) = F64.Num 0 \/ F64.mul64 x (F64.Num 0) = F64.NaN.
Proof.
  destruct x as [a| | |]; cbn [F64.mul64 Z.eqb]; auto.
  left. rewrite Z.mul_0_r. reflexivity.
Qed.

Lemma mul64_zero_or_NaN (x y : F64.number) :
  x = F64.Num 0 \/ x = F64.NaN ->
  F64.mul64 x y = F64.Num 0 \/ F64.mul64 x y = F64.NaN.
Proof.
  intros [-> | ->]; destruct y as [b| | |]; cbn [F64.mul64 Z.mul Z.eqb]; auto.
Qed.

Lemma mul64_exact (a b : Z) :
  Z.abs (a * b) <= max_safe_integer ->
  F64.mul64 (F64.Num a) (F64.Num b) = F64.Num (a * b).
Proof.
  intros H. cbn [F64.mul64]. apply round64_exact.
  unfold max_safe_integer in H. lia.
Qed.

(** The rounding of [round64] against the binary64 multiplication of the
    machine, on the products met below. *)
Example round64_hardware :
  F64.mul64 (F64.Num 94906261) (F64.Num 94906271) = F64.Num 9007199326062732
  /\ PrimFloat.eqb (PrimFloat.mul 94906261 94906271) 9007199326062732 = true
  /\ F64.mul64 (F64.Num 9007199326062732) (F64.Num 3)
     = F64.Num 27021597978188196
  /\ PrimFloat.eqb (PrimFloat.mul 9007199326062732 3) 27021597978188196 = true
  /\ F64.mul64 (F64.Num 284718813) (F64.Num 94906261)
     = F64.Num 27021597978188192
  /\ PrimFloat.eqb (PrimFloat.mul 284718813 94906261) 27021597978188192 = true.
Proof. repeat split; vm_compute; reflexivity. Qed.

(** ** Array accesses inside the bounds *)

Lemma f64_get_in_bounds (a : list F64.number) (k : nat) (v : F64.number) :
  a !! k = Some v -> F64.js_get a (Z.of_nat k) = Some v.
Proof.
  intros Hk. unfold F64.js_get.
  destruct (Z.leb_spec 0 (Z.of_nat k)); [|lia].
  now rewrite Nat2Z.id.
Qed.

Lemma f64_set_in_bounds (a : list F64.number) (k : nat) (v : F64.number) :
  (k < length a)%nat -> F64.js_set a (Z.of_nat k) v = Some (<[k:=v]> a).
Proof.
  intros Hk. unfold F64.js_set.
  destruct (Z.leb_spec 0 (Z.of_nat k)); [|lia].
  destruct (Z.ltb_spec (Z.of_nat k) (Z.of_nat (length a))); [|lia].
  cbn. now rewrite Nat2Z.id.
Qed.

Lemma f64_get_head (x : F64.number) (tail : list F64.number) :
  F64.js_get (x :: tail) 0 = Some x.
Proof. reflexivity. Qed.

Lemma f64_set_head (x v : F64.number) (tail : list F64.number) :
  F64.js_set (x :: tail) 0 v = Some (v :: tail).
Proof. reflexivity. Qed.

(** ** The loops of [F64.toShape] *)

Section ToShapeLoops64.
Variable shape : list F64.number.
Variable r : nat.

Lemma f64_collapse_step_lt (i : Z) (res : list F64.number) :
  i < Z.of_nat r ->
  F64.collapse_step shape (Z.of_nat r) i res
  = F64.expand_step shape (Z.of_nat r) i res.
Proof.
  intros Hi. unfold F64.collapse_step, F64.expand_step.
  destruct (Z.ltb_spec i (Z.of_nat r)); [reflexivity|lia].
Qed.

Lemma f64_expand_step_aligned (j : nat) :
  (j < length shape)%nat -> (S j <= r)%nat ->
  F64.expand_step shape (Z.of_nat r) (1 + Z.of_nat j)
    (replicate (r - j) (F64.Num 1) ++ drop (length shape - j) shape)
  = Some (replicate (r - S j) (F64.Num 1) ++ drop (length shape - S j) shape).
Proof.
  intros Hj Hr. unfold F64.expand_step.
  destruct (lookup_lt_is_Some_2 shape (length shape - S j)) as [v Hv]; [lia|].
  replace (Z.of_nat (length shape) - (1 + Z.of_nat j))
    with (Z.of_nat (length shape - S j)) by lia.
  rewrite (f64_get_in_bounds _ _ _ Hv). cbn [mbind option_bind].
  replace (Z.of_nat r - (1 + Z.of_nat j)) with (Z.of_nat (r - S j)) by lia.
  rewrite f64_set_in_bounds
    by (rewrite length_app, length_replicate; lia).
  f_equal.
  replace (r - j)%nat with (S (r - S j)) by lia.
  rewrite replicate_S_end, <- app_assoc. cbn [app].
  rewrite insert_app_r_alt by (rewrite length_replicate; lia).
  rewrite length_replicate, Nat.sub_diag. cbn.
  rewrite (drop_S _ _ _ Hv).
  now replace (S (length shape - S j)) with (length shape - j)%nat by lia.
Qed.

Lemma f64_expand_steps (j : nat) :
  (j <= length shape)%nat -> (j < r)%nat ->
  fold_left (fun res i => res ≫= F64.expand_step shape (Z.of_nat r) i)
    (seqZ 1 (Z.of_nat j)) (Some (replicate r (F64.Num 1)))
  = Some (replicate (r - j) (F64.Num 1) ++ drop (length shape - j) shape).
Proof.
  induction j as [|j IH]; intros Hj Hr.
  - cbn. rewrite !Nat.sub_0_r, drop_all, app_nil_r. reflexivity.
  - rewrite seqZ_S, fold_left_app, IH by lia. cbn [fold_left mbind option_bind].
    apply f64_expand_step_aligned; lia.
Qed.

Lemma f64_collapse_steps_aligned (j : nat) :
  (j <= length shape)%nat -> (j < r)%nat ->
  fold_left (fun res i => res ≫= F64.collapse_step shape (Z.of_nat r) i)
    (seqZ 1 (Z.of_nat j)) (Some (replicate r (F64.Num 1)))
  = Some (replicate (r - j) (F64.Num 1) ++ drop (length shape - j) shape).
Proof.
  induction j as [|j IH]; intros Hj Hr.
  - cbn. rewrite !Nat.sub_0_r, drop_all, app_nil_r. reflexivity.
  - rewrite seqZ_S, fold_left_app, IH by lia. cbn [fold_left mbind option_bind].
    rewrite f64_collapse_step_lt by lia.
    apply f64_expand_step_aligned; lia.
Qed.

(** One multiplication into position 0: the next dimension to the left
    is multiplied, on the right, into what position 0 holds. *)
Lemma f64_collapse_step_multiply (m k : nat) (tail : list F64.number) :
  (1 <= r)%nat -> (length shape + 1 = m + r)%nat -> (k < m)%nat ->
  F64.collapse_step shape (Z.of_nat r) (Z.of_nat r + Z.of_nat k)
    (F64.product_from_last (drop (m - k) (take m shape)) :: tail)
  = Some (F64.product_from_last (drop (m - S k) (take m shape)) :: tail).
Proof.
  intros Hr Hm Hk. unfold F64.collapse_step.
  destruct (Z.ltb_spec (Z.of_nat r + Z.of_nat k) (Z.of_nat r)); [lia|].
  rewrite f64_get_head. cbn [mbind option_bind].
  destruct (lookup_lt_is_Some_2 shape (m - S k)) as [v Hv]; [lia|].
  replace (Z.of_nat (length shape) - (Z.of_nat r + Z.of_nat k))
    with (Z.of_nat (m - S k)) by lia.
  rewrite (f64_get_in_bounds _ _ _ Hv). cbn [mbind option_bind].
  rewrite f64_set_head. f_equal. f_equal.
  assert (Hv' : take m shape !! (m - S k)%nat = Some v)
    by (rewrite lookup_take_lt by lia; exact Hv).
  rewrite (drop_S _ _ _ Hv').
  replace (S (m - S k)) with (m - k)%nat by lia.
  unfold F64.product_from_last. cbn [rev]. now rewrite fold_left_app.
Qed.

Lemma f64_collapse_steps_multiply (m k : nat) (tail : list F64.number) :
  (1 <= r)%nat -> (length shape + 1 = m + r)%nat -> (k <= m)%nat ->
  fold_left (fun res i => res ≫= F64.collapse_step shape (Z.of_nat r) i)
    (seqZ (Z.of_nat r) (Z.of_nat k)) (Some (F64.Num 1 :: tail))
  = Some (F64.product_from_last (drop (m - k) (take m shape)) :: tail).
Proof.
  intros Hr Hm. induction k as [|k IH]; intros Hk.
  - cbn. rewrite Nat.sub_0_r, drop_ge by (rewrite length_take; lia).
    reflexivity.
  - rewrite seqZ_S, fold_left_app, IH by lia. cbn [fold_left mbind option_bind].
    apply f64_collapse_step_multiply; lia.
Qed.

End ToShapeLoops64.

(** ** What [F64.toShape] returns in each of its three branches *)

Lemma f64_toShape_collapse (shape : list F64.number) (rank : Rank) :
  rank_value rank < Z.of_nat (length shape) ->
  F64.toShape shape rank
  = Some (F64.product_from_last
            (take (length shape + 1 - Z.to_nat (rank_value rank)) shape)
          :: drop (length shape + 1 - Z.to_nat (rank_value rank)) shape).
Proof.
  intros Hlt. pose proof (rank_value_bounds rank) as Hr.
  unfold F64.toShape, F64.ones.
  destruct (Z.ltb_spec (rank_value rank) (Z.of_nat (length shape))); [|lia].
  rewrite for_loop_seqZ.
  set (r := Z.to_nat (rank_value rank)).
  replace (rank_value rank) with (Z.of_nat r) by (subst r; lia).
  set (m := (length shape + 1 - r)%nat).
  replace (Z.of_nat (length shape) + 1 - 1)
    with (Z.of_nat (r - 1) + Z.of_nat m) by lia.
  rewrite seqZ_app, fold_left_app by lia.
  rewrite f64_collapse_steps_aligned by lia.
  replace (r - (r - 1))%nat with 1%nat by lia.
  replace (length shape - (r - 1))%nat with m by lia.
  replace (1 + Z.of_nat (r - 1)) with (Z.of_nat r) by lia.
  cbn [replicate app].
  rewrite (f64_collapse_steps_multiply shape r m m) by lia.
  now rewrite Nat.sub_diag, drop_0.
Qed.

Lemma f64_toShape_expand (shape : list F64.number) (rank : Rank) :
  Z.of_nat (length shape) < rank_value rank ->
  F64.toShape shape rank
  = Some (replicate (Z.to_nat (rank_value rank) - length shape) (F64.Num 1)
          ++ shape).
Proof.
  intros Hlt. pose proof (rank_value_bounds rank) as Hr.
  unfold F64.toShape, F64.ones.
  destruct (Z.ltb_spec (rank_value rank) (Z.of_nat (length shape))); [lia|].
  destruct (Z.gtb_spec (rank_value rank) (Z.of_nat (length shape))); [|lia].
  rewrite for_loop_seqZ.
  set (r := Z.to_nat (rank_value rank)).
  replace (rank_value rank) with (Z.of_nat r) by (subst r; lia).
  replace (Z.of_nat (length shape) + 1 - 1)
    with (Z.of_nat (length shape)) by lia.
  rewrite f64_expand_steps by lia.
  now rewrite Nat.sub_diag, drop_0.
Qed.

Lemma f64_toShape_same_rank (shape : list F64.number) (rank : Rank) :
  rank_value rank = Z.of_nat (length shape) ->
  F64.toShape shape rank = Some shape.
Proof.
  intros Heq. unfold F64.toShape.
  destruct (Z.ltb_spec (rank_value rank) (Z.of_nat (length shape))); [lia|].
  destruct (Z.gtb_spec (rank_value rank) (Z.of_nat (length shape))); [lia|].
  reflexivity.
Qed.

(** ** Agreement with exact arithmetic below 2^53 *)

(** With dimensions that are at least 1 every partial product is below
    the whole product: when that one is a safe integer, no
    multiplication rounds, in whatever order the dimensions are taken. *)
Lemma fold_mul64_exact (l : list Z) (a : Z) :
  1 <= a -> Forall (fun d => 1 <= d) l ->
  a * shapeLength l <= max_safe_integer ->
  fold_left F64.mul64 (map F64.Num l) (F64.Num a)
  = F64.Num (a * shapeLength l).
Proof.
  intros Ha Hl. revert a Ha.
  induction Hl as [|d l Hd Hl IH]; intros a Ha Hsafe.
  - rewrite shapeLength_nil, Z.mul_1_r. reflexivity.
  - rewrite shapeLength_cons in Hsafe |- *.
    pose proof (shapeLength_ge_1 l Hl) as Hp.
    cbn [map fold_left]. rewrite mul64_exact by nia.
    rewrite IH by nia. f_equal. lia.
Qed.

Lemma shapeLength_rev (l : list Z) : shapeLength (rev l) = shapeLength l.
Proof.
  induction l as [|d l IH]; [reflexivity|].
  cbn [rev]. rewrite shapeLength_app, IH, !shapeLength_cons, shapeLength_nil.
  lia.
Qed.

Lemma shapeLength_f64_exact (shape : list Z) :
  Forall (fun d => 1 <= d) shape -> shapeLength shape <= max_safe_integer ->
  F64.shapeLength (F64.dims shape) = F64.Num (shapeLength shape).
Proof.
  intros Hpos Hsafe. unfold F64.shapeLength, F64.dims.
  change (fun length i => F64.mul64 length i) with F64.mul64.
  rewrite fold_mul64_exact by (rewrite ?Z.mul_1_l; assumption || lia).
  f_equal. lia.
Qed.

Lemma product_from_last_exact (l : list Z) :
  Forall (fun d => 1 <= d) l -> shapeLength l <= max_safe_integer ->
  F64.product_from_last (F64.dims l) = F64.Num (shapeLength l).
Proof.
  intros Hpos Hsafe. unfold F64.product_from_last, F64.dims.
  rewrite <- map_rev.
  rewrite fold_mul64_exact; rewrite ?shapeLength_rev, ?Z.mul_1_l;
    try assumption; try lia; try reflexivity.
  now apply Forall_rev.
Qed.

Lemma shapeLength_take_le (shape : list Z) (m : nat) :
  Forall (fun d => 1 <= d) shape ->
  shapeLength (take m shape) <= shapeLength shape.
Proof.
  intros Hpos. rewrite <- (take_drop m shape) at 2. rewrite shapeLength_app.
  assert (1 <= shapeLength (take m shape))
    by (apply shapeLength_ge_1, Forall_take, Hpos).
  assert (1 <= shapeLength (drop m shape))
    by (apply shapeLength_ge_1, Forall_drop, Hpos).
  nia.
Qed.

(** On a shape of dimensions at least 1 whose element count is a safe
    integer, [F64.toShape] computes what [toShape] computes. *)
Lemma toShape_f64_exact (shape : list Z) (rank : Rank) :
  Forall (fun d => 1 <= d) shape -> shapeLength shape <= max_safe_integer ->
  F64.toShape (F64.dims shape) rank = F64.dims <$> toShape shape rank.
Proof.
  intros Hpos Hsafe.
  assert (Hlen : length (F64.dims shape) = length shape)
    by apply length_map.
  destruct (Z.lt_trichotomy (rank_value rank) (Z.of_nat (length shape)))
    as [H|[H|H]].
  - rewrite f64_toShape_collapse, toShape_collapse by (rewrite ?Hlen; exact H).
    rewrite Hlen. unfold leading. cbn [fmap option_fmap option_map].
    set (m := (length shape + 1 - Z.to_nat (rank_value rank))%nat).
    unfold F64.dims. cbn [map]. rewrite firstn_map, skipn_map.
    fold (F64.dims (take m shape)).
    rewrite product_from_last_exact; [reflexivity| |].
    + now apply Forall_take.
    + pose proof (shapeLength_take_le shape m Hpos). lia.
  - rewrite f64_toShape_same_rank, toShape_same_rank
      by (rewrite ?Hlen; exact H).
    reflexivity.
  - rewrite f64_toShape_expand, toShape_expand by (rewrite ?Hlen; exact H).
    rewrite Hlen. cbn [fmap option_fmap option_map]. unfold F64.dims.
    rewrite map_app. f_equal. f_equal.
    induction (Z.to_nat (rank_value rank) - length shape)%nat as [|k IH];
      [reflexivity|]. cbn. now rewrite IH.
Qed.

Lemma toShape_keeps_positive (shape res : list Z) (rank : Rank) :
  Forall (fun d => 1 <= d) shape -> toShape shape rank = Some res ->
  Forall (fun d => 1 <= d) res.
Proof.
  intros Hpos.
  destruct (Z.lt_trichotomy (rank_value rank) (Z.of_nat (length shape)))
    as [H|[H|H]].
  - rewrite toShape_collapse by exact H. intros [= <-]. constructor.
    + apply shapeLength_ge_1, Forall_take, Hpos.
    + apply Forall_drop, Hpos.
  - rewrite toShape_same_rank by exact H. now intros [= <-].
  - rewrite toShape_expand by exact H. intros [= <-].
    apply Forall_app; split; [|exact Hpos]. apply Forall_replicate. lia.
Qed.

(** ** Rank conversion and element count, as the numbers behave *)




(** C2. Collapse ([1 <= r < n]), for any numbers as dimensions:
    [toShape s r] has length [r]; each position [k] in [1 .. r-1] holds
    the source dimension [s[n - r + k]], so the innermost [r - 1]
    dimensions are kept right-aligned; position 0 holds the [n - r + 1]
    leading dimensions multiplied cumulatively into 1, from [s[n - r]]
    down to [s[0]].  In particular [toShape [1,2,3] 2 = [2,3]]. *)
Theorem toShape_collapse_spec (shape : list F64.number) (rank : Rank) :
  rank_value rank < Z.of_nat (length shape) ->
  (exists res,
      F64.toShape shape rank = Some res
      /\ res = F64.product_from_last
                 (take (length shape + 1 - Z.to_nat (rank_value rank)) shape)
               :: drop (length shape + 1 - Z.to_nat (rank_value rank)) shape
      /\ Z.of_nat (length res) = rank_value rank
      /\ res !! 0%nat
         = Some (F64.product_from_last
                   (take (length shape + 1 - Z.to_nat (rank_value rank)) shape))
      /\ (forall k : nat,
             (1 <= k)%nat -> Z.of_nat k < rank_value rank ->
             res !! k
             = shape !! (length shape - Z.to_nat (rank_value rank) + k)%nat))
  /\ F64.toShape (F64.dims [1; 2; 3]) R2 = Some (F64.dims [2; 3]).
Proof.
  intros Hlt. pose proof (rank_value_bounds rank) as Hr. split.
  - eexists. split; [apply f64_toShape_collapse; exact Hlt|].
    split; [reflexivity|]. repeat split.
    + cbn [length]. rewrite length_drop. lia.
    + intros k Hk1 Hk. destruct k as [|k]; [lia|].
      rewrite lookup_cons_ne_0 by lia. cbn [Nat.pred].
      rewrite lookup_drop. f_equal. lia.
  - vm_compute. reflexivity.
Qed.

Lemma toShape_collapse_spec_witness :
  rank_value R3 < Z.of_nat (length (F64.dims [4; 2; 5; 3; 7]))
  /\ F64.toShape (F64.dims [4; 2; 5; 3; 7]) R3 = Some (F64.dims [40; 3; 7]).
Proof.
  split; [cbn; lia|].
  destruct (toShape_collapse_spec (F64.dims [4; 2; 5; 3; 7]) R3)
    as [(res & -> & -> & _) _].
  - cbn; lia.
  - vm_compute. reflexivity.
Defined.

(** X7. For a shape of dimensions at least 1 whose element count is at
    most 2^53 - 1, converting to [rank1] and then to [rank2] is
    converting to [rank2] at once, provided [rank2 <= rank1] or the
    first conversion only pads ([shape.length <= rank1]). *)
Theorem toShape_twice (shape : list Z) (rank1 rank2 : Rank) :
  Forall (fun d => 1 <= d) shape -> shapeLength shape <= max_safe_integer ->
  rank_value rank2 <= rank_value rank1
  \/ Z.of_nat (length shape) <= rank_value rank1 ->
  F64.toShape (F64.dims shape) rank1 ≫= (fun res => F64.toShape res rank2)
  = F64.toShape (F64.dims shape) rank2.
Proof.
  intros Hpos Hsafe Hcase.
  destruct (toShape_preserves_shapeLength shape rank1) as (t & Ht & Hcount).
  rewrite (toShape_f64_exact shape rank1), Ht by assumption.
  cbn [fmap option_fmap option_map mbind option_bind].
  rewrite (toShape_f64_exact t rank2), (toShape_f64_exact shape rank2);
    rewrite ?Hcount; try assumption.
  - f_equal. rewrite <- (toShape_compose shape rank1 rank2 Hcase), Ht.
    reflexivity.
  - now apply (toShape_keeps_positive shape t rank1).
Qed.

Lemma toShape_twice_witness :
  Forall (fun d => 1 <= d) [2; 3; 4; 5; 6]
  /\ shapeLength [2; 3; 4; 5; 6] <= max_safe_integer
  /\ (rank_value R2 <= rank_value R4
      \/ Z.of_nat (length [2; 3; 4; 5; 6]) <= rank_value R4)
  /\ F64.toShape (F64.dims [2; 3; 4; 5; 6]) R4
       ≫= (fun res => F64.toShape res R2)
     = Some (F64.dims [120; 6]).
Proof.
  assert (Hp : Forall (fun d => 1 <= d) [2; 3; 4; 5; 6])
    by (repeat constructor; lia).
  assert (Hs : shapeLength [2; 3; 4; 5; 6] <= max_safe_integer)
    by (vm_compute; discriminate).
  split; [exact Hp|]. split; [exact Hs|]. split; [left; cbn; lia|].
  rewrite (toShape_twice [2; 3; 4; 5; 6] R4 R2 Hp Hs) by (left; cbn; lia).
  vm_compute. reflexivity.
Defined.

(** X9. For a shape of dimensions at least 1 whose element count is at
    most 2^53 - 1, [shapeTo1D] flattens: the result is the one-element
    shape that holds the [shapeLength], the exact element count. *)
Theorem shapeTo1D_safe_shapeLength (shape : list Z) :
  Forall (fun d => 1 <= d) shape -> shapeLength shape <= max_safe_integer ->
  F64.shapeTo1D (F64.dims shape) = Some [F64.shapeLength (F64.dims shape)]
  /\ F64.shapeLength (F64.dims shape) = F64.Num (shapeLength shape).
Proof.
  intros Hpos Hsafe. unfold F64.shapeTo1D.
  rewrite toShape_f64_exact, shapeLength_f64_exact by assumption.
  split; [|reflexivity].
  change (toShape shape R1) with (shapeTo1D shape).
  now rewrite shapeTo1D_shapeLength.
Qed.

Lemma shapeTo1D_safe_shapeLength_witness :
  Forall (fun d => 1 <= d) [1; 2; 3]
  /\ shapeLength [1; 2; 3] <= max_safe_integer
  /\ F64.shapeTo1D (F64.dims [1; 2; 3]) = Some [F64.Num 6].
Proof.
  assert (Hp : Forall (fun d => 1 <= d) [1; 2; 3]) by (repeat constructor; lia).
  assert (Hs : shapeLength [1; 2; 3] <= max_safe_integer)
    by (vm_compute; discriminate).
  split; [exact Hp|]. split; [exact Hs|].
  destruct (shapeTo1D_safe_shapeLength [1; 2; 3] Hp Hs) as [-> ->].
  reflexivity.
Defined.

Lemma f64_shapeLength_snoc (shape : list F64.number) (d : F64.number) :
  F64.shapeLength (shape ++ [d]) = F64.mul64 (F64.shapeLength shape) d.
Proof. unfold F64.shapeLength. now rewrite fold_left_app. Qed.

(** X10. Whatever the numbers, [shapeLength] is 0 only when some
    dimension is 0; and when some dimension is 0 it is 0 or [NaN]
    ([NaN] after an overflow or a [NaN] among the dimensions). *)
Theorem shapeLength_zero (shape : list F64.number) :
  (F64.shapeLength shape = F64.Num 0 -> F64.Num 0 ∈ shape)
  /\ (F64.Num 0 ∈ shape ->
      F64.shapeLength shape = F64.Num 0 \/ F64.shapeLength shape = F64.NaN).
Proof.
  induction shape as [|d shape [IH1 IH2]] using rev_ind.
  - split; [discriminate|]. intros H. inversion H.
  - rewrite f64_shapeLength_snoc, elem_of_app, list_elem_of_singleton. split.
    + intros [H|H]%mul64_zero; [left; now apply IH1|right; congruence].
    + intros [H|H].
      * now apply mul64_zero_or_NaN, IH2.
      * rewrite <- H. apply mul64_by_zero.
Qed.

Lemma shapeLength_zero_witness :
  F64.shapeLength (F64.dims [5; 0; 3]) = F64.Num 0
  /\ F64.Num 0 ∈ F64.dims [2 ^ 1023; 4; 0]
  /\ F64.shapeLength (F64.dims [2 ^ 1023; 4; 0]) = F64.NaN.
Proof.
  split; [vm_compute; reflexivity|].
  assert (Hin : F64.Num 0 ∈ F64.dims [2 ^ 1023; 4; 0]).
  { unfold F64.dims. cbn [map]. do 2 apply list_elem_of_further.
    apply list_elem_of_here. }
  split; [exact Hin|].
  destruct (proj2 (shapeLength_zero (F64.dims [2 ^ 1023; 4; 0])) Hin)
    as [H|H]; [|exact H].
  vm_compute in H. discriminate.
Defined.
